(** * Collapsing "allOf" in JSON Schema documents

    A shallow embedding of [json-schema-transform/lib/allOf.js] and the
    properties of its keyword merge functions, of [collapseSchemas] and of
    the callback built by [getCollapseAllOfCallback].

    Modelling conventions.
    - A JavaScript value is a [value]; [JUndefined] is the value a property
      read yields for an absent key, and the value the source can store
      under a key ([parent[exc] = subschema[exc]]).
    - JSON numbers are finite doubles, hence rationals: [JNum] carries a
      [Q], [===] on numbers is [Qeq_bool], [<] is [Qlt], [Math.max] and
      [Math.min] are [Qmax] and [Qmin].  The source does no arithmetic.
    - An object is the list of its own properties in insertion order, the
      order [Object.keys] reports for keys that are not array indices.
      JavaScript objects have no repeated key: [NoDup (keys o)] is the
      invariant of the representation, assumed where a proof needs it.
    - The source mutates [parent] in place, and in one place [subschema]
      too; every merge function therefore returns the new state of both
      objects.  Parent and subschema are taken to be separate trees, so
      copying a reference is copying a value.
    - Where the source relies on an implicit conversion or would raise a
      [TypeError] (a bound that is not a number, a "properties" value that
      is not an object, an "allOf" that is not an array) the model answers
      [ShapeMismatch]; a [throw] of the source is [Throw].  A failure
      carries no state: the source leaves the parent as far merged as it
      got, and nothing below is about that state.
    - Objects are read and written by their own keys.  The source goes
      through the prototype in three places: [vocab[k]] finds the members
      of [Object.prototype], [parent.hasOwnProperty] is the parent's own
      value when it has one under that name, and an assignment to
      "__proto__" sets the prototype.  [collapseSchemas] below is the
      source on schemas none of whose keys names such a member
      ([ordinary]); [keywordTurn] tells for every key which branch of the
      loop the source takes. *)

From Stdlib Require Import List String Ascii Bool Arith PeanoNat Lia.
From Stdlib Require Import QArith Qminmax DecimalString Lqa.
Import ListNotations.

Local Open Scope string_scope.
Local Open Scope list_scope.
Local Open Scope nat_scope.

(** ** Own properties of an object, in insertion order *)

Section OwnProperties.
Context {A : Type}.

(** [o.hasOwnProperty(k)] *)
Fixpoint hasOwnProperty (o : list (string * A)) (k : string) : bool :=
  match o with
  | [] => false
  | (k', _) :: o' => if String.eqb k' k then true else hasOwnProperty o' k
  end.

Fixpoint lookup (o : list (string * A)) (k : string) : option A :=
  match o with
  | [] => None
  | (k', v) :: o' => if String.eqb k' k then Some v else lookup o' k
  end.

(** [o[k] = v]: an existing key keeps its place, a new key goes last. *)
Fixpoint set (o : list (string * A)) (k : string) (v : A) : list (string * A) :=
  match o with
  | [] => [(k, v)]
  | (k', v') :: o' =>
      if String.eqb k' k then (k', v) :: o' else (k', v') :: set o' k v
  end.

(** [delete o[k]] *)
Fixpoint delete (o : list (string * A)) (k : string) : list (string * A) :=
  match o with
  | [] => []
  | (k', v') :: o' =>
      if String.eqb k' k then delete o' k else (k', v') :: delete o' k
  end.

(** [Object.keys(o)] *)
Definition keys (o : list (string * A)) : list string := map fst o.

(** [Object.assign(target, source)] *)
Definition assign (target source : list (string * A)) : list (string * A) :=
  fold_left (fun t e => set t (fst e) (snd e)) source target.
End OwnProperties.

(** ** Values *)

#[local] Unset Elimination Schemes.

Inductive value : Type :=
| JUndefined
| JNull
| JBool (b : bool)
| JNum (q : Q)
| JStr (s : string)
| JArr (elems : list value)
| JObj (props : list (string * value)).

#[local] Set Elimination Schemes.

Definition object : Type := list (string * value).

(** [o[k]], [undefined] when [k] is not an own property. *)
Definition get (o : object) (k : string) : value :=
  match lookup o k with
  | Some v => v
  | None => JUndefined
  end.

(** Truthiness, as [||] tests it. *)
Definition truthy (v : value) : bool :=
  match v with
  | JUndefined | JNull => false
  | JBool b => b
  | JNum q => negb (Qeq_bool q 0)
  | JStr s => negb (String.eqb s "")
  | JArr _ | JObj _ => true
  end.

(** [Array.isArray] *)
Definition isArray (v : value) : bool :=
  match v with
  | JArr _ => true
  | _ => false
  end.

(** ** lodash

    lodash is an outside dependency; its functions are modelled from their
    documentation. *)

(** [_.isEqual]: deep comparison; arrays element by element, objects by
    their own properties whatever the order of the keys. *)
Fixpoint isEqual (a b : value) {struct a} : bool :=
  match a, b with
  | JUndefined, JUndefined => true
  | JNull, JNull => true
  | JBool x, JBool y => Bool.eqb x y
  | JNum x, JNum y => Qeq_bool x y
  | JStr x, JStr y => String.eqb x y
  | JArr xs, JArr ys =>
      (fix elements (xs ys : list value) {struct xs} : bool :=
         match xs, ys with
         | [], [] => true
         | x :: xs', y :: ys' => isEqual x y && elements xs' ys'
         | _, _ => false
         end) xs ys
  | JObj xs, JObj ys =>
      Nat.eqb (List.length xs) (List.length ys) &&
      (fix properties (xs : list (string * value)) {struct xs} : bool :=
         match xs with
         | [] => true
         | (k, v) :: xs' =>
             match lookup ys k with
             | Some w => isEqual v w
             | None => false
             end && properties xs'
         end) xs
  | _, _ => false
  end.

(** Membership up to a comparator, [arrayIncludesWith]. *)
Definition includesWith {A : Type} (cmp : A -> A -> bool) (l : list A) (x : A) : bool :=
  existsb (cmp x) l.

(** [_.uniqWith]: the first occurrence of every value, in order. *)
Definition uniqWith {A : Type} (cmp : A -> A -> bool) (l : list A) : list A :=
  fold_left (fun result x => if includesWith cmp result x then result else result ++ [x])
            l [].

(** An argument that is not an array counts as an empty one. *)
Definition castArray (v : value) : list value :=
  match v with
  | JArr l => l
  | _ => []
  end.

(** [_.unionWith(a, b, cmp)]: unique values, in order, from both arrays. *)
Definition unionWith (a b : value) (cmp : value -> value -> bool) : list value :=
  uniqWith cmp (castArray a ++ castArray b).

(** [_.intersectionWith(a, b, cmp)]: unique values of the first array that
    are included in the second; order and values come from the first. *)
Definition intersectionWith (a b : value) (cmp : value -> value -> bool) : list value :=
  uniqWith cmp (filter (includesWith cmp (castArray b)) (castArray a)).

(** [_.union] on two arrays of keys. *)
Definition union (a b : list string) : list string :=
  uniqWith String.eqb (a ++ b).

(** ** Paths and failures *)

Inductive segment : Type :=
| Key (k : string)
| Index (i : nat).

Definition path : Type := list segment.

(** The [throw] sites of the source. *)
Inductive error : Type :=
| AdditionalItemsNotSupported (at_ : path)
| MixedFormsNotSupported (at_ : path)
| AdditionalPropertiesNotSupported (at_ : path)
| Collision (keyword : string) (at_ : path)
| KeywordNotSupported (keyword : string) (at_ : path)
| CannotCollapseBoolean (at_ : path).

Definition quote : string := String (ascii_of_nat 34) EmptyString.

Definition segment_to_string (s : segment) : string :=
  match s with
  | Key k => k
  | Index i => NilEmpty.string_of_uint (Nat.to_uint i)
  end.

(** [parentPath.join('/')] *)
Definition join (p : path) : string :=
  String.concat "/" (map segment_to_string p).

(** The string the source throws. *)
Definition message (e : error) : string :=
  match e with
  | AdditionalItemsNotSupported p =>
      quote ++ "additionalItems" ++ quote ++ " not supported at /" ++ join p
  | MixedFormsNotSupported p =>
      "Mixed schema and array form of " ++ quote ++ "items" ++ quote
        ++ " not supported at /" ++ join p
  | AdditionalPropertiesNotSupported p =>
      quote ++ "additionalProperties" ++ quote ++ " not supported at /" ++ join p
  | Collision k p =>
      "Collision for keyword " ++ quote ++ k ++ quote ++ " at /" ++ join p
  | KeywordNotSupported k p =>
      "Keyword " ++ quote ++ k ++ quote ++ " not supported at /" ++ join p
  | CannotCollapseBoolean p =>
      "Cannot collapse boolean schemas at /" ++ join p
  end.

Inductive result (A : Type) : Type :=
| Ok (a : A)
| Throw (e : error)
| ShapeMismatch
| OutOfFuel.

Arguments Ok {A} a.
Arguments Throw {A} e.
Arguments ShapeMismatch {A}.
Arguments OutOfFuel {A}.

Definition bind {A B : Type} (c : result A) (k : A -> result B) : result B :=
  match c with
  | Ok a => k a
  | Throw e => Throw e
  | ShapeMismatch => ShapeMismatch
  | OutOfFuel => OutOfFuel
  end.

Notation "' p <- c ;; k" := (bind c (fun p => k))
  (at level 61, p pattern, c at next level, right associativity).

(** The state a merge function works on: the parent and the subschema. *)
Definition state : Type := (object * object)%type.

(** ** Vocabularies *)

(** The merge functions a vocabulary can name. *)
Inductive handler : Type :=
| H_or
| H_maxOfMin
| H_minOfMax
| H_exclusiveComparison
| H_arrayUnion
| H_arrayIntersection
| H_singleValueOrArrayIntersection
| H_collapseArrayOrSingleSchemas
| H_collapseObjectOfSchemas
| H_parentWins
| H_collision
| H_notSupported.

Definition vocabulary : Type := list (string * handler).

Definition DRAFT_04_NO_ID : vocabulary :=
  [ ("type", H_singleValueOrArrayIntersection);
    ("enum", H_arrayIntersection);
    ("minimum", H_exclusiveComparison);
    ("maximum", H_exclusiveComparison);
    ("multipleOf", H_collision);
    ("minLength", H_maxOfMin);
    ("maxLength", H_minOfMax);
    ("pattern", H_collision);
    ("items", H_collapseArrayOrSingleSchemas);
    ("additionalItems", H_notSupported);
    ("minItems", H_maxOfMin);
    ("maxItems", H_minOfMax);
    ("uniqueItems", H_or);
    ("properties", H_collapseObjectOfSchemas);
    ("patternProperties", H_collapseObjectOfSchemas);
    ("additionalProperties", H_notSupported);
    ("dependencies", H_notSupported);
    ("required", H_arrayUnion);
    ("minProperties", H_maxOfMin);
    ("maxProperties", H_minOfMax);
    ("allOf", H_parentWins);
    ("anyOf", H_collision);
    ("oneOf", H_collision);
    ("not", H_collision);
    ("title", H_parentWins);
    ("description", H_parentWins);
    ("default", H_parentWins);
    ("format", H_collision);
    ("definitions", H_parentWins);
    ("$ref", H_notSupported) ].

Definition DRAFT_04 : vocabulary :=
  assign (assign [] DRAFT_04_NO_ID) [ ("id", H_parentWins) ].

Definition DRAFT_04_HYPER : vocabulary :=
  assign (assign [] DRAFT_04)
    [ ("links", H_arrayUnion);
      ("readOnly", H_or);
      ("media", H_collision);
      ("pathStart", H_notSupported);
      ("fragmentResolution", H_notSupported) ].

Definition DRAFT_06 : vocabulary :=
  assign (assign [] DRAFT_04_NO_ID)
    [ ("$id", H_parentWins);
      ("const", H_collision);
      ("minimum", H_maxOfMin);
      ("exclusiveMinimum", H_maxOfMin);
      ("maximum", H_minOfMax);
      ("exclusiveMaximum", H_minOfMax);
      ("propertyNames", H_collapseObjectOfSchemas);
      ("examples", H_arrayUnion) ].

Definition DRAFT_06_HYPER : vocabulary :=
  assign (assign [] DRAFT_06)
    [ ("base", H_collision);
      ("links", H_arrayUnion);
      ("readOnly", H_or);
      ("media", H_collision) ].

Definition DRAFT_07 : vocabulary :=
  assign (assign [] DRAFT_06)
    [ ("if", H_collision);
      ("then", H_collision);
      ("else", H_collision);
      ("readOnly", H_or);
      ("writeOnly", H_or);
      ("contentMediaType", H_collision);
      ("contentEncoding", H_collision) ].

Definition DRAFT_07_HYPER : vocabulary :=
  assign (assign [] DRAFT_07)
    [ ("base", H_collision);
      ("links", H_arrayUnion) ].

Definition CLOUDFLARE_DOCA : vocabulary :=
  assign (assign [] DRAFT_04_HYPER)
    [ ("$comment", H_parentWins);
      ("example", H_parentWins);
      ("cfPrivate", H_or);
      ("cfOmitFromExample", H_or);
      ("cfExtendedDescription", H_parentWins);
      ("cfNotes", H_parentWins);
      ("cfLinkErrors", H_arrayUnion);
      ("cfSectionNotes", H_arrayUnion);
      ("cfRecurse", H_notSupported) ].

(** ** Collapser functions

    Each takes the parent, the path of the parent, the subschema and the
    keyword, as in the source; the vocabulary reaches the two recursive
    ones through [collapse], the recursive call to [collapseSchemas]. *)

Definition _or (parent : object) (parentPath : path) (subschema : object)
    (keyword : string) : result state :=
  Ok (set parent keyword
        (if truthy (get parent keyword) then get parent keyword
         else get subschema keyword),
      subschema).

Definition _maxOfMin (parent : object) (parentPath : path) (subschema : object)
    (keyword : string) : result state :=
  match get parent keyword, get subschema keyword with
  | JNum p, JNum s => Ok (set parent keyword (JNum (Qmax p s)), subschema)
  | _, _ => ShapeMismatch
  end.

Definition _minOfMax (parent : object) (parentPath : path) (subschema : object)
    (keyword : string) : result state :=
  match get parent keyword, get subschema keyword with
  | JNum p, JNum s => Ok (set parent keyword (JNum (Qmin p s)), subschema)
  | _, _ => ShapeMismatch
  end.

(** [keyword.slice(1)] *)
Definition slice1 (s : string) : string :=
  match s with
  | EmptyString => EmptyString
  | String _ s' => s'
  end.

Definition Qltb (p s : Q) : bool := negb (Qle_bool s p).

Definition chooseSubValue (keyword : string) (p s : Q) : bool :=
  if String.eqb keyword "minimum" then Qltb p s else Qltb s p.

Definition excKeyword (keyword : string) : string :=
  "exclusiveM" ++ slice1 keyword.

Definition _exclusiveComparison (parent : object) (parentPath : path)
    (subschema : object) (keyword : string) : result state :=
  match get parent keyword, get subschema keyword with
  | JNum p, JNum s =>
      if Qeq_bool p s &&
         (truthy (get parent (excKeyword keyword))
          || truthy (get subschema (excKeyword keyword)))
      then Ok (set parent (excKeyword keyword) (JBool true), subschema)
      else if chooseSubValue keyword p s
      then Ok (set (set parent keyword (JNum s))
                 (excKeyword keyword) (get subschema (excKeyword keyword)),
               subschema)
      else Ok (parent, subschema)
  | _, _ => ShapeMismatch
  end.

Definition _arrayUnion (parent : object) (parentPath : path) (subschema : object)
    (keyword : string) : result state :=
  Ok (set parent keyword
        (JArr (unionWith (get parent keyword) (get subschema keyword) isEqual)),
      subschema).

Definition _arrayIntersection (parent : object) (parentPath : path)
    (subschema : object) (keyword : string) : result state :=
  Ok (set parent keyword
        (JArr (intersectionWith (get parent keyword) (get subschema keyword) isEqual)),
      subschema).

Definition _singleValueOrArrayIntersection (parent : object) (parentPath : path)
    (subschema : object) (keyword : string) : result state :=
  let parent :=
    if negb (isArray (get parent keyword))
    then set parent keyword (JArr [get parent keyword]) else parent in
  let subschema :=
    if negb (isArray (get subschema keyword))
    then set subschema keyword (JArr [get subschema keyword]) else subschema in
  ' (parent, subschema) <- _arrayIntersection parent parentPath subschema keyword ;;
  match get parent keyword with
  | JArr [v] => Ok (set parent keyword v, subschema)
  | _ => Ok (parent, subschema)
  end.

Definition _parentWins (parent : object) (parentPath : path) (subschema : object)
    (keyword : string) : result state :=
  Ok (parent, subschema).

Definition _collision (parent : object) (parentPath : path) (subschema : object)
    (keyword : string) : result state :=
  if negb (isEqual (get parent keyword) (get subschema keyword))
  then Throw (Collision keyword parentPath)
  else Ok (parent, subschema).

Definition _notSupported (parent : object) (parentPath : path) (subschema : object)
    (keyword : string) : result state :=
  Throw (KeywordNotSupported keyword parentPath).

(** *** The two recursive collapser functions

    [collapse] stands for [collapseSchemas] with the vocabulary in place;
    it answers the new state of the two schemas it was given. *)

(** A value under key [k] was mutated in place into [v]: the object
    holds the new state under [k], and gains no key if it had none. *)
Definition mutated (o : object) (k : string) (v : value) : object :=
  if hasOwnProperty o k then set o k v else o.

Section Recursive.
Variable collapse : value -> path -> value -> result (value * value).

(** The loop [for (i = 0; i < commonLength; i++)] of
    [_collapseArrayOrSingleSchemas], from index [i] on: the elements
    beyond the common length are left as they are. *)
Fixpoint collapseElements (parentPath : path) (keyword : string) (i : nat)
    (parentVal subVal : list value) : result (list value * list value) :=
  match parentVal, subVal with
  | p :: parentVal', s :: subVal' =>
      ' (p', s') <- collapse p (parentPath ++ [Key keyword; Index i]) s ;;
      ' (ps, ss) <- collapseElements parentPath keyword (S i) parentVal' subVal' ;;
      Ok (p' :: ps, s' :: ss)
  | _, _ => Ok (parentVal, subVal)
  end.

Definition _collapseArrayOrSingleSchemas (parent : object) (parentPath : path)
    (subschema : object) (keyword : string) : result state :=
  if String.eqb keyword "items" &&
     (hasOwnProperty parent "additionalItems"
      || hasOwnProperty subschema "additionalItems")
  then Throw (AdditionalItemsNotSupported parentPath)
  else
    let parentVal := get parent keyword in
    let subVal := get subschema keyword in
    if negb (Bool.eqb (isArray parentVal) (isArray subVal))
    then Throw (MixedFormsNotSupported parentPath)
    else
      match parentVal, subVal with
      | JArr ps, JArr ss =>
          let commonLength := Nat.min (List.length ps) (List.length ss) in
          ' (ps', ss') <- collapseElements parentPath keyword 0 ps ss ;;
          let ps' :=
            if commonLength <? List.length ss'
            then ps' ++ skipn commonLength ss' else ps' in
          Ok (set parent keyword (JArr ps'), set subschema keyword (JArr ss'))
      | _, _ =>
          ' (p', s') <- collapse parentVal (parentPath ++ [Key keyword]) subVal ;;
          Ok (mutated parent keyword p', mutated subschema keyword s')
      end.

(** The loop [for (let prop of _.union(...))] of
    [_collapseObjectOfSchemas] on the two objects of schemas. *)
Fixpoint collapseProperties (parentPath : path) (keyword : string)
    (props : list string) (parentVal subVal : object) : result state :=
  match props with
  | [] => Ok (parentVal, subVal)
  | prop :: props' =>
      if negb (hasOwnProperty parentVal prop)
      then collapseProperties parentPath keyword props'
             (set parentVal prop (get subVal prop)) subVal
      else if hasOwnProperty subVal prop
      then
        ' (p', s') <- collapse (get parentVal prop)
                        (parentPath ++ [Key keyword; Key prop]) (get subVal prop) ;;
        collapseProperties parentPath keyword props'
          (set parentVal prop p') (set subVal prop s')
      else collapseProperties parentPath keyword props' parentVal subVal
  end.

Definition _collapseObjectOfSchemas (parent : object) (parentPath : path)
    (subschema : object) (keyword : string) : result state :=
  if (String.eqb keyword "properties" || String.eqb keyword "patternProperties") &&
     (hasOwnProperty parent "additionalProperties"
      || hasOwnProperty subschema "additionalProperties")
  then Throw (AdditionalPropertiesNotSupported parentPath)
  else
    match get parent keyword, get subschema keyword with
    | JObj pv, JObj sv =>
        ' (pv', sv') <- collapseProperties parentPath keyword
                          (union (keys pv) (keys sv)) pv sv ;;
        Ok (set parent keyword (JObj pv'), set subschema keyword (JObj sv'))
    | _, _ => ShapeMismatch
    end.

(** [vocab[k](parent, parentPath, subschema, vocab, k)] *)
Definition invoke (h : handler) (parent : object) (parentPath : path)
    (subschema : object) (keyword : string) : result state :=
  match h with
  | H_or => _or parent parentPath subschema keyword
  | H_maxOfMin => _maxOfMin parent parentPath subschema keyword
  | H_minOfMax => _minOfMax parent parentPath subschema keyword
  | H_exclusiveComparison => _exclusiveComparison parent parentPath subschema keyword
  | H_arrayUnion => _arrayUnion parent parentPath subschema keyword
  | H_arrayIntersection => _arrayIntersection parent parentPath subschema keyword
  | H_singleValueOrArrayIntersection =>
      _singleValueOrArrayIntersection parent parentPath subschema keyword
  | H_collapseArrayOrSingleSchemas =>
      _collapseArrayOrSingleSchemas parent parentPath subschema keyword
  | H_collapseObjectOfSchemas =>
      _collapseObjectOfSchemas parent parentPath subschema keyword
  | H_parentWins => _parentWins parent parentPath subschema keyword
  | H_collision => _collision parent parentPath subschema keyword
  | H_notSupported => _notSupported parent parentPath subschema keyword
  end.

(** One turn of the loop [for (let k of Object.keys(subschema))], for a
    key [k] that names no member of [Object.prototype]: [vocab[k]] is then
    the own entry of the vocabulary or [undefined], and [parent[k] = ...]
    creates the own key. *)
Definition collapseKeyword (vocab : vocabulary) (parentPath : path)
    (k : string) (parent subschema : object) : result state :=
  if hasOwnProperty parent k
  then
    match lookup vocab k with
    | Some h => invoke h parent parentPath subschema k
    | None => Ok (parent, subschema)
    end
  else Ok (set parent k (get subschema k), subschema).

Fixpoint collapseKeywords (vocab : vocabulary) (parentPath : path)
    (ks : list string) (parent subschema : object) : result state :=
  match ks with
  | [] => Ok (parent, subschema)
  | k :: ks' =>
      ' (parent', subschema') <- collapseKeyword vocab parentPath k parent subschema ;;
      collapseKeywords vocab parentPath ks' parent' subschema'
  end.
End Recursive.

(** ** [collapseSchemas] *)

Definition isTrue (v : value) : bool :=
  match v with
  | JBool true => true
  | _ => false
  end.

Definition isFalse (v : value) : bool :=
  match v with
  | JBool false => true
  | _ => false
  end.

(** The two [delete]s at the head of [collapseSchemas]. *)
Definition pruneDangling (parent : object) : object :=
  let parent :=
    if hasOwnProperty parent "exclusiveMaximum" && negb (hasOwnProperty parent "maximum")
    then delete parent "exclusiveMaximum" else parent in
  if hasOwnProperty parent "exclusiveMinimum" && negb (hasOwnProperty parent "minimum")
  then delete parent "exclusiveMinimum" else parent.

(** [fuel] bounds the nesting of the recursive calls; a call on a
    subschema with [n] levels of nested objects needs [S n] (see
    [collapseSchemas_fuel]). *)
Fixpoint collapseSchemas (fuel : nat) (vocab : vocabulary) (parent : value)
    (parentPath : path) (subschema : value) : result (value * value) :=
  match fuel with
  | O => OutOfFuel
  | S fuel' =>
      if isTrue parent || (negb (isFalse parent) && isFalse subschema)
      then Throw (CannotCollapseBoolean parentPath)
      else if isFalse parent || isTrue subschema
      then Ok (parent, subschema)
      else
        match parent, subschema with
        | JObj p, JObj s =>
            ' (p', s') <- collapseKeywords (collapseSchemas fuel' vocab) vocab
                            parentPath (keys s) (pruneDangling p) s ;;
            Ok (JObj p', JObj s')
        | _, _ => ShapeMismatch
        end
  end.

(** ** [getCollapseAllOfCallback] *)

Definition draft04 : string := "http://json-schema.org/draft-04/schema#".
Definition draft04Hyper : string := "http://json-schema.org/draft-04/hyper-schema#".

(** The vocabulary the callback closes over. *)
Definition effectiveVocabulary (metaSchemaUri : string)
    (additionalVocabularies : list vocabulary) : vocabulary :=
  let vocab := [] in
  let vocab :=
    if String.eqb metaSchemaUri draft04 then assign vocab DRAFT_04
    else if String.eqb metaSchemaUri draft04Hyper then assign vocab DRAFT_04_HYPER
    else vocab in
  fold_left assign additionalVocabularies vocab.

(** The [_.reduce] of the callback: every element of "allOf" is collapsed
    into the node in turn. *)
Fixpoint reduceAllOf (fuel : nat) (vocab : vocabulary) (at_ : path)
    (allOf : list value) (subAsParent : value) : result value :=
  match allOf with
  | [] => Ok subAsParent
  | schemaFromAllOf :: allOf' =>
      ' (subAsParent', _) <- collapseSchemas fuel vocab subAsParent at_ schemaFromAllOf ;;
      reduceAllOf fuel vocab at_ allOf' subAsParent'
  end.

(** The callback, applied to a node, its path and the path of its parent;
    it answers the new state of the node.  The elements of "allOf" leave
    the document with the [delete], so their new state is not kept. *)
Definition getCollapseAllOfCallback (metaSchemaUri : string)
    (additionalVocabularies : list vocabulary) (fuel : nat)
    (subschema : value) (path_ parentPath : path) : result value :=
  let vocab := effectiveVocabulary metaSchemaUri additionalVocabularies in
  match subschema with
  | JObj o =>
      if hasOwnProperty o "allOf"
      then
        match get o "allOf" with
        | JArr allOf =>
            ' r <- reduceAllOf fuel vocab (parentPath ++ path_) allOf subschema ;;
            match r with
            | JObj o' => Ok (JObj (delete o' "allOf"))
            | _ => ShapeMismatch
            end
        | _ => ShapeMismatch
        end
      else Ok subschema
  | _ => Ok subschema
  end.

(** * Notions the properties are stated with *)

(** ** The rule for one keyword, as the specification words it *)

Section KeywordRuleOfSpec.
Variable collapse : value -> path -> value -> result (value * value).
Variable vocab : vocabulary.
Variable parentPath : path.

(** The rule of the specification for one keyword of the subschema, as
    a relation between the state before and the outcome: handler,
    pass-through or copy. *)
Inductive spec_keyword (k : string) (parent subschema : object) :
  result state -> Prop :=
| spec_handler (h : handler) :
    hasOwnProperty parent k = true ->
    lookup vocab k = Some h ->
    spec_keyword k parent subschema (invoke collapse h parent parentPath subschema k)
| spec_pass_through :
    hasOwnProperty parent k = true ->
    lookup vocab k = None ->
    spec_keyword k parent subschema (Ok (parent, subschema))
| spec_copy :
    hasOwnProperty parent k = false ->
    spec_keyword k parent subschema (Ok (set parent k (get subschema k), subschema)).

(** The rule applied to the keywords in turn; the first outcome that is
    not a new state ends the run. *)
Inductive spec_keywords : list string -> object -> object -> result state -> Prop :=
| spec_done parent subschema :
    spec_keywords [] parent subschema (Ok (parent, subschema))
| spec_next k ks parent subschema parent' subschema' r :
    spec_keyword k parent subschema (Ok (parent', subschema')) ->
    spec_keywords ks parent' subschema' r ->
    spec_keywords (k :: ks) parent subschema r
| spec_stop k ks parent subschema r :
    spec_keyword k parent subschema r ->
    (forall st, r <> Ok st) ->
    spec_keywords (k :: ks) parent subschema r.
End KeywordRuleOfSpec.

(** ** Which side wins a bound *)

(** The side a bound keyword of draft-04 takes when the bounds differ:
    the subschema wins "minimum" with the larger value, "maximum" with the
    smaller one. *)
Definition subschemaWins (keyword : string) (p s : Q) : Prop :=
  (keyword = "minimum" /\ (p < s)%Q) \/ (keyword = "maximum" /\ (s < p)%Q).

(** The parent wins with the strictly tighter bound. *)
Definition parentWins (keyword : string) (p s : Q) : Prop :=
  (keyword = "minimum" /\ (s < p)%Q) \/ (keyword = "maximum" /\ (p < s)%Q).

(** What [collapseSchemas] answers for the outcome of the run: the parent
    in its last state, and the subschema in its own. *)
Definition returned (r : result state) : result (value * value) :=
  match r with
  | Ok (parent, subschema) => Ok (JObj parent, JObj subschema)
  | Throw e => Throw e
  | ShapeMismatch => ShapeMismatch
  | OutOfFuel => OutOfFuel
  end.

(** ** Well-formed values and what two schemas have in common *)

(** Induction on a value, with the property at hand for the elements of an
    array and for the values of the properties of an object. *)
Section ValueInduction.
Variable P : value -> Prop.
Hypothesis P_undefined : P JUndefined.
Hypothesis P_null : P JNull.
Hypothesis P_bool : forall b, P (JBool b).
Hypothesis P_num : forall q, P (JNum q).
Hypothesis P_str : forall s, P (JStr s).
Hypothesis P_arr : forall l, Forall P l -> P (JArr l).
Hypothesis P_obj : forall o, Forall (fun e => P (snd e)) o -> P (JObj o).

Fixpoint value_ind (v : value) : P v :=
  match v with
  | JUndefined => P_undefined
  | JNull => P_null
  | JBool b => P_bool b
  | JNum q => P_num q
  | JStr s => P_str s
  | JArr l =>
      P_arr l
        ((fix elements (l : list value) : Forall P l :=
            match l with
            | [] => Forall_nil P
            | x :: l' => Forall_cons x (value_ind x) (elements l')
            end) l)
  | JObj o =>
      P_obj o
        ((fix properties (o : list (string * value)) : Forall (fun e => P (snd e)) o :=
            match o with
            | [] => Forall_nil _
            | e :: o' =>
                Forall_cons (P := fun e => P (snd e)) e (value_ind (snd e)) (properties o')
            end) o)
  end.
End ValueInduction.

(** No string twice in the list. *)
Fixpoint nodupb (l : list string) : bool :=
  match l with
  | [] => true
  | x :: l' => negb (existsb (String.eqb x) l') && nodupb l'
  end.

(** The invariant of JavaScript objects: no key twice, at every level. *)
Fixpoint wellFormed (v : value) : bool :=
  match v with
  | JArr l => forallb wellFormed l
  | JObj o => nodupb (keys o) && forallb (fun e => wellFormed (snd e)) o
  | _ => true
  end.

(** Two lists of one length, related element by element. *)
Fixpoint all2 {A : Type} (f : A -> A -> bool) (xs ys : list A) : bool :=
  match xs, ys with
  | [], [] => true
  | x :: xs', y :: ys' => f x y && all2 f xs' ys'
  | _, _ => false
  end.

(** The object [ys] has the key of [e], with a deeply equal value. *)
Definition sameProperty (ys : object) (e : string * value) : bool :=
  match lookup ys (fst e) with
  | Some w => isEqual (snd e) w
  | None => false
  end.




(** ** Merges that do not depend on the order *)











(** ** Fuel *)

(** How deep the objects of a value are nested; an array adds no level. *)
Fixpoint nesting (v : value) : nat :=
  match v with
  | JArr l => fold_right (fun x m => Nat.max (nesting x) m) 0 l
  | JObj o => S (fold_right (fun e m => Nat.max (nesting (snd e)) m) 0 o)
  | _ => 0
  end.

(** The recursive call leaves the subschema no deeper than it was. *)
Definition shrinks (collapse : value -> path -> value -> result (value * value)) : Prop :=
  forall p parentPath s p' s',
    collapse p parentPath s = Ok (p', s') -> nesting s' <= nesting s.

(** The recursive call has fuel for every subschema nested less than [d]. *)
Definition fuelled (collapse : value -> path -> value -> result (value * value))
    (d : nat) : Prop :=
  forall p parentPath s, nesting s < d -> collapse p parentPath s <> OutOfFuel.

(** [collapse2] answers as [collapse1] wherever [collapse1] has fuel. *)
Definition extends (collapse1 collapse2 : value -> path -> value -> result (value * value))
  : Prop :=
  forall p parentPath s,
    collapse1 p parentPath s <> OutOfFuel ->
    collapse2 p parentPath s = collapse1 p parentPath s.

(** ** Notions for the further properties *)

(** No element of the list is equal, up to [cmp], to one before it. *)
Fixpoint distinctWith {A : Type} (cmp : A -> A -> bool) (l : list A) : bool :=
  match l with
  | [] => true
  | x :: l' => forallb (fun y => negb (cmp y x)) l' && distinctWith cmp l'
  end.

(** The path a failure names. *)
Definition errorPath (e : error) : path :=
  match e with
  | AdditionalItemsNotSupported p => p
  | MixedFormsNotSupported p => p
  | AdditionalPropertiesNotSupported p => p
  | Collision _ p => p
  | KeywordNotSupported _ p => p
  | CannotCollapseBoolean p => p
  end.

(** A number against the lower bound of a draft-04 schema: "minimum",
    strict when "exclusiveMinimum" is set; no bound, no constraint. *)
Definition aboveMinimum (o : object) (x : Q) : Prop :=
  match get o "minimum" with
  | JNum b => if truthy (get o "exclusiveMinimum") then (b < x)%Q else (b <= x)%Q
  | _ => True
  end.

(** A number against the upper bound of a draft-04 schema. *)
Definition belowMaximum (o : object) (x : Q) : Prop :=
  match get o "maximum" with
  | JNum b => if truthy (get o "exclusiveMaximum") then (x < b)%Q else (x <= b)%Q
  | _ => True
  end.

(** The failures of the recursive call name a path at or below the one
    it was called with. *)
Definition locates (collapse : value -> path -> value -> result (value * value))
  : Prop :=
  forall p parentPath s e,
    collapse p parentPath s = Throw e ->
    exists suffix, errorPath e = parentPath ++ suffix.

(** ** Keywords that name a member of [Object.prototype] *)

(** The source builds every vocabulary as a plain object and reads schemas
    that [JSON.parse] produced, so all of them inherit from
    [Object.prototype].  Its members: *)
Definition objectPrototype : list string :=
  [ "constructor"; "__defineGetter__"; "__defineSetter__"; "hasOwnProperty";
    "__lookupGetter__"; "__lookupSetter__"; "isPrototypeOf";
    "propertyIsEnumerable"; "toString"; "valueOf"; "__proto__";
    "toLocaleString" ].

Definition isPrototypeMember (k : string) : bool :=
  existsb (String.eqb k) objectPrototype.

(** No own key of the object names a member of [Object.prototype]. *)
Definition ordinaryKeys {A : Type} (o : list (string * A)) : bool :=
  forallb (fun k => negb (isPrototypeMember k)) (keys o).

(** The same of every object inside the value. *)
Fixpoint ordinary (v : value) : bool :=
  match v with
  | JArr l => forallb ordinary l
  | JObj o =>
      forallb (fun e => negb (isPrototypeMember (fst e)) && ordinary (snd e)) o
  | _ => true
  end.

(** What the property read [vocab[k]] yields: the merge function stored
    under an own key, else what [Object.prototype] has under the name: one
    of its methods, or for "__proto__" the prototype object itself, which
    is no function; [undefined] for any other name. *)
Inductive member : Type :=
| OwnHandler (h : handler)
| InheritedFunction
| InheritedObject
| NoMember.

Definition vocabularyMember (vocab : vocabulary) (k : string) : member :=
  match lookup vocab k with
  | Some h => OwnHandler h
  | None =>
      if String.eqb k "__proto__" then InheritedObject
      else if isPrototypeMember k then InheritedFunction
      else NoMember
  end.

(** What one turn of the loop of [collapseSchemas] does with the keyword
    [k] of the subschema, for a parent whose prototype is
    [Object.prototype]:
<<
    if (parent.hasOwnProperty(k)) {
      if (vocab[k] !== undefined) { vocab[k](parent, parentPath, subschema, vocab, k); }
    } else { parent[k] = subschema[k]; }
>>
    A parent with an own key "hasOwnProperty" hides the method behind a
    JSON value, and calling that fails as calling [vocab["__proto__"]]
    does. *)
Inductive turn : Type :=
| InvokesHandler (h : handler)
| CallsInheritedFunction
| CallsWhatIsNoFunction
| LeavesParentAlone
| Assigns.

Definition keywordTurn (vocab : vocabulary) (parent : object) (k : string) : turn :=
  if hasOwnProperty parent "hasOwnProperty" then CallsWhatIsNoFunction
  else if hasOwnProperty parent k
  then
    match vocabularyMember vocab k with
    | OwnHandler h => InvokesHandler h
    | InheritedFunction => CallsInheritedFunction
    | InheritedObject => CallsWhatIsNoFunction
    | NoMember => LeavesParentAlone
    end
  else Assigns.

(** * Properties *)

(** ** Reading, writing and deleting own properties *)

Section OwnPropertiesFacts.
Context {A : Type}.
Implicit Types (o : list (string * A)) (k : string) (v : A).

Lemma hasOwnProperty_lookup o k :
  hasOwnProperty o k = match lookup o k with Some _ => true | None => false end.
Proof.
  induction o as [|[k' v'] o IH]; simpl; [reflexivity|].
  destruct (String.eqb k' k); [reflexivity | exact IH].
Qed.

Lemma hasOwnProperty_In o k :
  hasOwnProperty o k = true <-> In k (keys o).
Proof.
  induction o as [|[k' v'] o IH]; simpl.
  - split; [discriminate | tauto].
  - destruct (String.eqb_spec k' k) as [->|Hne].
    + split; auto.
    + rewrite IH. split; [auto | intros [H|H]; [contradiction | exact H]].
Qed.

Lemma hasOwnProperty_false_In o k :
  hasOwnProperty o k = false <-> ~ In k (keys o).
Proof.
  rewrite <- hasOwnProperty_In. destruct (hasOwnProperty o k); split; intros; congruence.
Qed.

Lemma lookup_In o k v : lookup o k = Some v -> In (k, v) o.
Proof.
  induction o as [|[k' v'] o IH]; simpl; [discriminate|].
  destruct (String.eqb_spec k' k) as [->|Hne].
  - intros [= ->]. now left.
  - intros H. right. auto.
Qed.

Lemma In_lookup o k v : NoDup (keys o) -> In (k, v) o -> lookup o k = Some v.
Proof.
  induction o as [|[k' v'] o IH]; simpl; [tauto|].
  intros Hnd [Hin|Hin].
  - injection Hin as -> ->. now rewrite String.eqb_refl.
  - inversion Hnd as [|? ? Hnotin Hnd']; subst.
    destruct (String.eqb_spec k' k) as [->|Hne].
    + exfalso. apply Hnotin. change k with (fst (k, v)). now apply in_map.
    + auto.
Qed.

Lemma lookup_set_same o k v : lookup (set o k v) k = Some v.
Proof.
  induction o as [|[k' v'] o IH]; simpl.
  - now rewrite String.eqb_refl.
  - destruct (String.eqb_spec k' k) as [->|Hne]; simpl.
    + now rewrite String.eqb_refl.
    + destruct (String.eqb_spec k' k); [contradiction | exact IH].
Qed.

Lemma lookup_set_other o k k' v : k <> k' -> lookup (set o k v) k' = lookup o k'.
Proof.
  intros Hne. induction o as [|[k0 v0] o IH]; simpl.
  - destruct (String.eqb_spec k k'); [contradiction | reflexivity].
  - destruct (String.eqb_spec k0 k) as [->|Hne0]; simpl.
    + destruct (String.eqb_spec k k'); [contradiction | reflexivity].
    + now rewrite IH.
Qed.

Lemma hasOwnProperty_set o k k' v :
  hasOwnProperty (set o k v) k' = String.eqb k k' || hasOwnProperty o k'.
Proof.
  rewrite !hasOwnProperty_lookup.
  destruct (String.eqb_spec k k') as [<-|Hne].
  - now rewrite lookup_set_same.
  - now rewrite lookup_set_other.
Qed.

Lemma lookup_delete_same o k : lookup (delete o k) k = None.
Proof.
  induction o as [|[k' v'] o IH]; simpl; [reflexivity|].
  destruct (String.eqb_spec k' k) as [->|Hne]; simpl; [exact IH|].
  destruct (String.eqb_spec k' k); [contradiction | exact IH].
Qed.

Lemma lookup_delete_other o k k' : k <> k' -> lookup (delete o k) k' = lookup o k'.
Proof.
  intros Hne. induction o as [|[k0 v0] o IH]; simpl; [reflexivity|].
  destruct (String.eqb_spec k0 k) as [->|Hne0]; simpl.
  - destruct (String.eqb_spec k k'); [contradiction | exact IH].
  - now rewrite IH.
Qed.

Lemma hasOwnProperty_delete o k k' :
  hasOwnProperty (delete o k) k' = negb (String.eqb k k') && hasOwnProperty o k'.
Proof.
  rewrite !hasOwnProperty_lookup.
  destruct (String.eqb_spec k k') as [<-|Hne]; simpl.
  - now rewrite lookup_delete_same.
  - now rewrite lookup_delete_other.
Qed.

Lemma keys_set o k v :
  keys (set o k v) = if hasOwnProperty o k then keys o else keys o ++ [k].
Proof.
  induction o as [|[k' v'] o IH]; simpl; [reflexivity|].
  destruct (String.eqb_spec k' k) as [->|Hne]; simpl; [reflexivity|].
  rewrite IH. now destruct (hasOwnProperty o k).
Qed.

Lemma NoDup_keys_set o k v : NoDup (keys o) -> NoDup (keys (set o k v)).
Proof.
  intros Hnd. rewrite keys_set.
  destruct (hasOwnProperty o k) eqn:Hk; [exact Hnd|].
  apply hasOwnProperty_false_In in Hk.
  apply NoDup_app; [exact Hnd | repeat constructor; simpl; tauto |].
  intros x Hx [<-|[]]. contradiction.
Qed.

Lemma keys_delete_incl o k : incl (keys (delete o k)) (keys o).
Proof.
  induction o as [|[k' v'] o IH]; simpl; [apply incl_refl|].
  destruct (String.eqb k' k).
  - now apply incl_tl.
  - simpl. intros x [<-|Hx]; [now left | right; now apply IH].
Qed.

Lemma NoDup_keys_delete o k : NoDup (keys o) -> NoDup (keys (delete o k)).
Proof.
  induction o as [|[k' v'] o IH]; simpl; [auto|].
  intros Hnd. inversion Hnd as [|? ? Hnotin Hnd']; subst.
  destruct (String.eqb k' k); [auto|].
  simpl. constructor; [|auto].
  intros Hin. apply Hnotin. now apply (keys_delete_incl o k).
Qed.
End OwnPropertiesFacts.

Lemma get_set_same (o : object) k v : get (set o k v) k = v.
Proof. unfold get. now rewrite lookup_set_same. Qed.

Lemma get_set_other (o : object) k k' v : k <> k' -> get (set o k v) k' = get o k'.
Proof. intros H. unfold get. now rewrite lookup_set_other. Qed.

Lemma get_delete_other (o : object) k k' : k <> k' -> get (delete o k) k' = get o k'.
Proof. intros H. unfold get. now rewrite lookup_delete_other. Qed.

Lemma get_absent (o : object) k : hasOwnProperty o k = false -> get o k = JUndefined.
Proof.
  unfold get. rewrite hasOwnProperty_lookup. now destruct (lookup o k).
Qed.

Lemma lookup_mutated_other (o : object) k k' v :
  k <> k' -> lookup (mutated o k v) k' = lookup o k'.
Proof.
  intros H. unfold mutated. destruct (hasOwnProperty o k); [|reflexivity].
  now apply lookup_set_other.
Qed.


Lemma excKeyword_neq k : excKeyword k <> k.
Proof.
  intros H. apply (f_equal String.length) in H.
  unfold excKeyword in H. destruct k; simpl in H; lia.
Qed.

(** ** Comparisons of bounds *)

Lemma Qltb_lt p s : Qltb p s = true <-> (p < s)%Q.
Proof.
  unfold Qltb. rewrite negb_true_iff. split.
  - intros H. apply Qnot_le_lt. intros Hle.
    apply Qle_bool_iff in Hle. congruence.
  - intros H. destruct (Qle_bool s p) eqn:E; [|reflexivity].
    apply Qle_bool_iff in E. exfalso. exact (Qlt_not_le _ _ H E).
Qed.

Lemma Qltb_irrefl_eq p s : (p == s)%Q -> Qltb p s = false /\ Qltb s p = false.
Proof.
  intros H. split; apply not_true_is_false; rewrite Qltb_lt; rewrite H;
    apply Qlt_irrefl.
Qed.

Lemma Qeq_bool_false_lt p s : (p < s)%Q \/ (s < p)%Q -> Qeq_bool p s = false.
Proof.
  intros H. apply not_true_is_false. rewrite Qeq_bool_iff. intros E.
  rewrite E in H. destruct H as [H|H]; exact (Qlt_irrefl _ H).
Qed.

Lemma chooseSubValue_subschemaWins keyword p s :
  subschemaWins keyword p s -> chooseSubValue keyword p s = true.
Proof.
  unfold chooseSubValue. intros [[-> H]|[-> H]]; simpl; now apply Qltb_lt.
Qed.

Lemma chooseSubValue_parentWins keyword p s :
  parentWins keyword p s -> chooseSubValue keyword p s = false.
Proof.
  unfold chooseSubValue. intros [[-> H]|[-> H]]; simpl;
    apply not_true_is_false; rewrite Qltb_lt; intros H';
    exact (Qlt_irrefl _ (Qlt_trans _ _ _ H H')).
Qed.

Lemma chooseSubValue_tie keyword p s :
  (p == s)%Q -> chooseSubValue keyword p s = false.
Proof.
  intros H. unfold chooseSubValue.
  destruct (Qltb_irrefl_eq p s H) as [H1 H2].
  now destruct (String.eqb keyword "minimum").
Qed.

(** ** The boolean schemas (C5) *)

(** C5, as the claim states it, fails: with parent [true] and subschema
    [true] the first test of [collapseSchemas] already throws, although the
    claim has every collapse with subschema [true] return the parent. *)
Lemma collapseSchemas_true_true_throws :
  collapseSchemas 1 DRAFT_04 (JBool true) [] (JBool true)
  = Throw (CannotCollapseBoolean []).
Proof. reflexivity. Qed.

(** C5, amended: a parent [true] fails with every subschema, [true]
    included; a parent [false] is returned unchanged with every subschema;
    a subschema [true] leaves every parent other than [true] unchanged;
    a subschema [false] fails with every parent other than [false]. *)
Theorem collapseSchemas_boolean (n : nat) (vocab : vocabulary) (parentPath : path) :
  (forall s, collapseSchemas (S n) vocab (JBool true) parentPath s
             = Throw (CannotCollapseBoolean parentPath)) /\
  (forall s, collapseSchemas (S n) vocab (JBool false) parentPath s
             = Ok (JBool false, s)) /\
  (forall p, p <> JBool true ->
             collapseSchemas (S n) vocab p parentPath (JBool true)
             = Ok (p, JBool true)) /\
  (forall p, p <> JBool false ->
             collapseSchemas (S n) vocab p parentPath (JBool false)
             = Throw (CannotCollapseBoolean parentPath)).
Proof.
  repeat split.
  - intros p Hp. simpl.
    destruct p as [| |[|]| | | |]; try reflexivity. congruence.
  - intros p Hp. simpl.
    destruct p as [| |[|]| | | |]; try reflexivity. congruence.
Qed.

Lemma collapseSchemas_boolean_witness :
  collapseSchemas 1 DRAFT_04 (JObj [("type", JStr "string")]) [] (JBool true)
  = Ok (JObj [("type", JStr "string")], JBool true)
  /\ collapseSchemas 1 DRAFT_04 (JObj [("type", JStr "string")]) [] (JBool false)
     = Throw (CannotCollapseBoolean []).
Proof.
  split.
  - apply (proj1 (proj2 (proj2 (collapseSchemas_boolean 0 DRAFT_04 [])))).
    discriminate.
  - apply (proj2 (proj2 (proj2 (collapseSchemas_boolean 0 DRAFT_04 [])))).
    discriminate.
Defined.

(** ** The companion keywords (C4) *)

(** C4: the merge of "items" fails at once when either side has an own
    "additionalItems", and the merge of "properties" or "patternProperties"
    fails at once when either side has an own "additionalProperties";
    nothing is collapsed first, whatever the recursive call would do. *)
Theorem companion_keyword_rejected
    (collapse : value -> path -> value -> result (value * value))
    (parent : object) (parentPath : path) (subschema : object) :
  (hasOwnProperty parent "additionalItems" = true
   \/ hasOwnProperty subschema "additionalItems" = true ->
   _collapseArrayOrSingleSchemas collapse parent parentPath subschema "items"
   = Throw (AdditionalItemsNotSupported parentPath)) /\
  (forall keyword,
     keyword = "properties" \/ keyword = "patternProperties" ->
     hasOwnProperty parent "additionalProperties" = true
     \/ hasOwnProperty subschema "additionalProperties" = true ->
     _collapseObjectOfSchemas collapse parent parentPath subschema keyword
     = Throw (AdditionalPropertiesNotSupported parentPath)).
Proof.
  split.
  - intros H. unfold _collapseArrayOrSingleSchemas. simpl String.eqb.
    replace (hasOwnProperty parent "additionalItems"
             || hasOwnProperty subschema "additionalItems") with true; [reflexivity|].
    symmetry. apply orb_true_iff. exact H.
  - intros keyword Hk H. unfold _collapseObjectOfSchemas.
    replace (hasOwnProperty parent "additionalProperties"
             || hasOwnProperty subschema "additionalProperties") with true.
    + destruct Hk as [-> | ->]; reflexivity.
    + symmetry. apply orb_true_iff. exact H.
Qed.

Lemma companion_keyword_rejected_witness :
  collapseSchemas 2 DRAFT_04
    (JObj [("items", JObj []); ("additionalItems", JBool false)]) [Key "a"]
    (JObj [("items", JObj [])])
  = Throw (AdditionalItemsNotSupported [Key "a"])
  /\ _collapseObjectOfSchemas (collapseSchemas 1 DRAFT_04)
       [("patternProperties", JObj [])] []
       [("patternProperties", JObj []); ("additionalProperties", JBool true)]
       "patternProperties"
     = Throw (AdditionalPropertiesNotSupported []).
Proof.
  split.
  - change (' (p', s') <- _collapseArrayOrSingleSchemas (collapseSchemas 1 DRAFT_04)
                [("items", JObj []); ("additionalItems", JBool false)] [Key "a"]
                [("items", JObj [])] "items" ;;
            Ok (JObj p', JObj s')
            = Throw (AdditionalItemsNotSupported [Key "a"])).
    rewrite (proj1 (companion_keyword_rejected (collapseSchemas 1 DRAFT_04)
                      [("items", JObj []); ("additionalItems", JBool false)]
                      [Key "a"] [("items", JObj [])])).
    + reflexivity.
    + left. reflexivity.
  - apply (proj2 (companion_keyword_rejected (collapseSchemas 1 DRAFT_04)
                    [("patternProperties", JObj [])] []
                    [("patternProperties", JObj []);
                     ("additionalProperties", JBool true)])).
    + right. reflexivity.
    + right. reflexivity.
Defined.

(** ** The exclusive bounds of draft-04 (C2) *)

Lemma exclusiveComparison_tie parent parentPath subschema keyword p s :
  get parent keyword = JNum p -> get subschema keyword = JNum s -> (p == s)%Q ->
  exists parent',
    _exclusiveComparison parent parentPath subschema keyword = Ok (parent', subschema)
    /\ get parent' keyword = JNum p
    /\ truthy (get parent' (excKeyword keyword))
       = truthy (get parent (excKeyword keyword))
         || truthy (get subschema (excKeyword keyword)).
Proof.
  intros Hp Hs Heq. unfold _exclusiveComparison. rewrite Hp, Hs.
  apply Qeq_bool_iff in Heq as Hb. rewrite Hb. simpl andb.
  destruct (truthy (get parent (excKeyword keyword))
            || truthy (get subschema (excKeyword keyword))) eqn:E.
  - eexists. split; [reflexivity|]. split.
    + rewrite get_set_other; [exact Hp | apply excKeyword_neq].
    + now rewrite get_set_same.
  - rewrite (chooseSubValue_tie keyword p s Heq).
    eexists. split; [reflexivity|]. split; [exact Hp|].
    apply orb_false_iff in E. now destruct E as [-> _].
Qed.

Lemma exclusiveComparison_subschemaWins parent parentPath subschema keyword p s :
  get parent keyword = JNum p -> get subschema keyword = JNum s ->
  subschemaWins keyword p s ->
  exists parent',
    _exclusiveComparison parent parentPath subschema keyword = Ok (parent', subschema)
    /\ get parent' keyword = JNum s
    /\ get parent' (excKeyword keyword) = get subschema (excKeyword keyword).
Proof.
  intros Hp Hs Hw. unfold _exclusiveComparison. rewrite Hp, Hs.
  rewrite Qeq_bool_false_lt by (destruct Hw as [[_ H]|[_ H]]; auto).
  simpl andb. rewrite (chooseSubValue_subschemaWins keyword p s Hw).
  eexists. split; [reflexivity|]. split.
  - rewrite get_set_other by apply excKeyword_neq. apply get_set_same.
  - apply get_set_same.
Qed.

Lemma exclusiveComparison_parentWins parent parentPath subschema keyword p s :
  get parent keyword = JNum p -> get subschema keyword = JNum s ->
  parentWins keyword p s ->
  _exclusiveComparison parent parentPath subschema keyword = Ok (parent, subschema).
Proof.
  intros Hp Hs Hw. unfold _exclusiveComparison. rewrite Hp, Hs.
  rewrite Qeq_bool_false_lt by (destruct Hw as [[_ H]|[_ H]]; auto).
  simpl andb. now rewrite (chooseSubValue_parentWins keyword p s Hw).
Qed.

(** C2: [_exclusiveComparison] on "minimum" or "maximum", both sides
    holding a numeric bound.  Equal bounds: the bound stays and the merged
    modifier is set exactly when one of the two modifiers is.  Different
    bounds: the tighter side wins; when the subschema wins, its bound and
    its modifier are stored together; when the parent wins, the parent is
    left as it is, so the modifier of the subschema is dropped.  Parent
    [minimum: 5] against subschema [minimum: 3, exclusiveMinimum: true]
    comes out as [minimum: 5] alone. *)
Theorem exclusiveComparison_resolution :
  (forall keyword parent parentPath subschema p s,
      keyword = "minimum" \/ keyword = "maximum" ->
      get parent keyword = JNum p ->
      get subschema keyword = JNum s ->
      exists parent',
        _exclusiveComparison parent parentPath subschema keyword
        = Ok (parent', subschema)
        /\ ((p == s)%Q ->
            get parent' keyword = JNum p
            /\ truthy (get parent' (excKeyword keyword))
               = truthy (get parent (excKeyword keyword))
                 || truthy (get subschema (excKeyword keyword)))
        /\ (subschemaWins keyword p s ->
            get parent' keyword = JNum s
            /\ get parent' (excKeyword keyword) = get subschema (excKeyword keyword))
        /\ (parentWins keyword p s -> parent' = parent))
  /\ excKeyword "minimum" = "exclusiveMinimum"
  /\ excKeyword "maximum" = "exclusiveMaximum"
  /\ _exclusiveComparison [("minimum", JNum 5)] []
       [("minimum", JNum 3); ("exclusiveMinimum", JBool true)] "minimum"
     = Ok ([("minimum", JNum 5)],
           [("minimum", JNum 3); ("exclusiveMinimum", JBool true)]).
Proof.
  split; [|repeat split].
  intros keyword parent parentPath subschema p s Hk Hp Hs.
  destruct (Q_dec p s) as [[Hlt|Hgt]|Heq].
  - (* p < s *)
    destruct Hk as [-> | ->].
    + destruct (exclusiveComparison_subschemaWins parent parentPath subschema
                  "minimum" p s Hp Hs) as (parent' & Hr & Hb & He).
      { left. auto. }
      exists parent'. split; [exact Hr|]. split; [|split].
      * intros E. rewrite E in Hlt. destruct (Qlt_irrefl _ Hlt).
      * auto.
      * intros [[_ H]|[H _]]; [|discriminate].
        destruct (Qlt_irrefl _ (Qlt_trans _ _ _ H Hlt)).
    + exists parent.
      assert (Hw : parentWins "maximum" p s) by (right; auto).
      split; [exact (exclusiveComparison_parentWins _ parentPath _ _ p s Hp Hs Hw)|].
      split; [|split].
      * intros E. rewrite E in Hlt. destruct (Qlt_irrefl _ Hlt).
      * intros [[H _]|[_ H]]; [discriminate|].
        destruct (Qlt_irrefl _ (Qlt_trans _ _ _ H Hlt)).
      * reflexivity.
  - (* s < p *)
    destruct Hk as [-> | ->].
    + exists parent.
      assert (Hw : parentWins "minimum" p s) by (left; auto).
      split; [exact (exclusiveComparison_parentWins _ parentPath _ _ p s Hp Hs Hw)|].
      split; [|split].
      * intros E. rewrite E in Hgt. destruct (Qlt_irrefl _ Hgt).
      * intros [[_ H]|[H _]]; [|discriminate].
        destruct (Qlt_irrefl _ (Qlt_trans _ _ _ H Hgt)).
      * reflexivity.
    + destruct (exclusiveComparison_subschemaWins parent parentPath subschema
                  "maximum" p s Hp Hs) as (parent' & Hr & Hb & He).
      { right. auto. }
      exists parent'. split; [exact Hr|]. split; [|split].
      * intros E. rewrite E in Hgt. destruct (Qlt_irrefl _ Hgt).
      * auto.
      * intros [[H _]|[_ H]]; [discriminate|].
        destruct (Qlt_irrefl _ (Qlt_trans _ _ _ H Hgt)).
  - (* p == s *)
    destruct (exclusiveComparison_tie parent parentPath subschema keyword p s
                Hp Hs Heq) as (parent' & Hr & Hb & He).
    exists parent'. split; [exact Hr|]. split; [|split].
    + auto.
    + intros [[_ H]|[_ H]]; rewrite Heq in H; destruct (Qlt_irrefl _ H).
    + intros [[_ H]|[_ H]]; rewrite Heq in H; destruct (Qlt_irrefl _ H).
Qed.

Lemma exclusiveComparison_resolution_witness :
  exists parent',
    _exclusiveComparison [("maximum", JNum 7); ("exclusiveMaximum", JBool true)]
      [Key "a"] [("maximum", JNum 4)] "maximum"
    = Ok (parent', [("maximum", JNum 4)])
    /\ get parent' "maximum" = JNum 4
    /\ get parent' "exclusiveMaximum" = JUndefined.
Proof.
  destruct (proj1 exclusiveComparison_resolution "maximum"
              [("maximum", JNum 7); ("exclusiveMaximum", JBool true)]
              [Key "a"] [("maximum", JNum 4)] 7%Q 4%Q
              (or_intror eq_refl) eq_refl eq_refl)
    as (parent' & Hr & _ & Hsub & _).
  exists parent'. split; [exact Hr|].
  apply Hsub. right. split; reflexivity.
Defined.

(** The same pair through [collapseSchemas] and the vocabulary of
    draft-04: "minimum" is resolved as above, and the loop over the
    keywords then finds "exclusiveMinimum" in the subschema and not in the
    parent, which makes it a copy. *)
Lemma collapseSchemas_copies_modifier_of_loser :
  collapseSchemas 1 DRAFT_04 (JObj [("minimum", JNum 5)]) []
    (JObj [("minimum", JNum 3); ("exclusiveMinimum", JBool true)])
  = Ok (JObj [("minimum", JNum 5); ("exclusiveMinimum", JBool true)],
        JObj [("minimum", JNum 3); ("exclusiveMinimum", JBool true)]).
Proof. reflexivity. Qed.

(** ** The subschema is written to (C9) *)

(** C9: when the value of the subschema is not an array,
    [_singleValueOrArrayIntersection] stores a one-element array in its
    place, in the subschema the caller handed over; an array is left as it
    is.  The header of the collapser functions promises that they "do not
    modify the subschema". *)
Theorem singleValueOrArrayIntersection_writes_subschema
    (parent : object) (parentPath : path) (subschema : object) (keyword : string) :
  isArray (get subschema keyword) = false ->
  exists parent' subschema',
    _singleValueOrArrayIntersection parent parentPath subschema keyword
    = Ok (parent', subschema')
    /\ subschema' = set subschema keyword (JArr [get subschema keyword])
    /\ get subschema' keyword = JArr [get subschema keyword]
    /\ get subschema' keyword <> get subschema keyword.
Proof.
  intros Hs. unfold _singleValueOrArrayIntersection, _arrayIntersection.
  rewrite Hs. simpl negb. cbv iota. unfold bind.
  match goal with
  | |- exists _ _, match get ?P _ with _ => _ end = _ /\ _ =>
      destruct (get P keyword) as [| | | | |[|v [|]]|]
  end;
    (do 2 eexists; split; [reflexivity|]; split; [reflexivity|];
     rewrite get_set_same; split; [reflexivity|];
     intros E; rewrite <- E in Hs; discriminate).
Qed.

Lemma singleValueOrArrayIntersection_writes_subschema_witness :
  exists parent' subschema',
    _singleValueOrArrayIntersection [("type", JStr "string")] []
      [("type", JStr "string")] "type"
    = Ok (parent', subschema')
    /\ subschema' = [("type", JArr [JStr "string"])].
Proof.
  destruct (singleValueOrArrayIntersection_writes_subschema
              [("type", JStr "string")] [] [("type", JStr "string")] "type" eq_refl)
    as (parent' & subschema' & Hr & Hs & _).
  exists parent', subschema'. split; [exact Hr | exact Hs].
Defined.

(** ** What a merge leaves alone *)

Lemma bind_Ok {A B : Type} (c : result A) (f : A -> result B) (b : B) :
  bind c f = Ok b -> exists a, c = Ok a /\ f a = Ok b.
Proof. destruct c; simpl; intros H; try discriminate. eauto. Qed.

Ltac ok_inv :=
  repeat match goal with
         | H : Ok _ = Ok _ |- _ => injection H as H; subst
         | H : (_, _) = (_, _) |- _ => injection H as H; subst
         | H : Throw _ = Ok _ |- _ => discriminate H
         | H : ShapeMismatch = Ok _ |- _ => discriminate H
         | H : OutOfFuel = Ok _ |- _ => discriminate H
         | H : bind _ _ = Ok _ |- _ =>
             let a := fresh "a" in
             let Ha := fresh "Ha" in
             apply bind_Ok in H; destruct H as (a & Ha & H); try destruct a
         end.

Section Frame.
Variable collapse : value -> path -> value -> result (value * value).

(** A collapser function writes the parent under [keyword] only, or,
    for [_exclusiveComparison], under [keyword] and its modifier; it
    writes the subschema under [keyword] only. *)
Lemma invoke_frame h parent parentPath subschema keyword parent' subschema' :
  invoke collapse h parent parentPath subschema keyword = Ok (parent', subschema') ->
  (forall k, k <> keyword ->
             (h = H_exclusiveComparison -> k <> excKeyword keyword) ->
             lookup parent' k = lookup parent k)
  /\ (forall k, k <> keyword -> lookup subschema' k = lookup subschema k).
Proof.
  intros H.
  assert (Hset : forall (o : object) v k, k <> keyword ->
                   lookup (set o keyword v) k = lookup o k).
  { intros o v k Hk. apply lookup_set_other. congruence. }
  assert (Hmut : forall (o : object) v k, k <> keyword ->
                   lookup (mutated o keyword v) k = lookup o k).
  { intros o v k Hk. apply lookup_mutated_other. congruence. }
  destruct h; simpl in H.
  - unfold _or in H. ok_inv. split; intros; auto.
  - unfold _maxOfMin in H.
    destruct (get parent keyword), (get subschema keyword); ok_inv.
    split; intros; auto.
  - unfold _minOfMax in H.
    destruct (get parent keyword), (get subschema keyword); ok_inv.
    split; intros; auto.
  - unfold _exclusiveComparison in H.
    destruct (get parent keyword), (get subschema keyword); ok_inv.
    destruct (_ && _).
    + ok_inv. split; intros k Hk; [|reflexivity].
      intros He. apply lookup_set_other. specialize (He eq_refl). congruence.
    + destruct (chooseSubValue _ _ _); ok_inv; split; intros k Hk; try reflexivity.
      intros He. rewrite lookup_set_other by (specialize (He eq_refl); congruence).
      auto.
  - unfold _arrayUnion in H. ok_inv. split; intros; auto.
  - unfold _arrayIntersection in H. ok_inv. split; intros; auto.
  - unfold _singleValueOrArrayIntersection, _arrayIntersection in H.
    simpl in H.
    match type of H with
    | match get ?P _ with _ => _ end = _ =>
        destruct (get P keyword) as [| | | | |[|v [|]]|]
    end; ok_inv;
      (split; intros k Hk; [intros _|];
       repeat (destruct (negb _)); rewrite ?Hset by exact Hk; reflexivity).
  - unfold _collapseArrayOrSingleSchemas in H.
    destruct (_ && _); [discriminate|].
    destruct (negb _); [discriminate|].
    destruct (get parent keyword), (get subschema keyword); ok_inv;
      split; intros; auto.
  - unfold _collapseObjectOfSchemas in H.
    destruct (_ && _); [discriminate|].
    destruct (get parent keyword), (get subschema keyword); ok_inv.
    split; intros; auto.
  - unfold _parentWins in H. ok_inv. split; intros; reflexivity.
  - unfold _collision in H. destruct (negb _); ok_inv. split; intros; reflexivity.
  - unfold _notSupported in H. discriminate.
Qed.

Lemma collapseKeyword_frame vocab parentPath keyword parent subschema parent' subschema' :
  collapseKeyword collapse vocab parentPath keyword parent subschema
  = Ok (parent', subschema') ->
  (forall k, k <> keyword ->
             (lookup vocab keyword = Some H_exclusiveComparison ->
              k <> excKeyword keyword) ->
             lookup parent' k = lookup parent k)
  /\ (forall k, k <> keyword -> lookup subschema' k = lookup subschema k).
Proof.
  unfold collapseKeyword. intros H.
  destruct (hasOwnProperty parent keyword).
  - destruct (lookup vocab keyword) as [h|] eqn:Hv.
    + destruct (invoke_frame _ _ _ _ _ _ _ H) as [Hp Hs].
      split; [|exact Hs].
      intros k Hk He. apply Hp; [exact Hk|]. intros ->. now apply He.
    + ok_inv. split; reflexivity.
  - ok_inv. split; [|reflexivity].
    intros k Hk _. apply lookup_set_other. congruence.
Qed.

Lemma collapseKeywords_app vocab parentPath ks1 ks2 parent subschema :
  collapseKeywords collapse vocab parentPath (ks1 ++ ks2) parent subschema
  = ' (parent', subschema') <-
      collapseKeywords collapse vocab parentPath ks1 parent subschema ;;
    collapseKeywords collapse vocab parentPath ks2 parent' subschema'.
Proof.
  revert parent subschema. induction ks1 as [|k ks1 IH]; intros; simpl.
  - reflexivity.
  - destruct (collapseKeyword _ _ _ _ _ _) as [[p1 s1]| | |]; simpl; auto.
Qed.

Lemma collapseKeywords_frame vocab parentPath ks parent subschema parent' subschema' :
  collapseKeywords collapse vocab parentPath ks parent subschema
  = Ok (parent', subschema') ->
  (forall k, ~ In k ks ->
             (forall keyword, In keyword ks ->
                              lookup vocab keyword = Some H_exclusiveComparison ->
                              k <> excKeyword keyword) ->
             lookup parent' k = lookup parent k)
  /\ (forall k, ~ In k ks -> lookup subschema' k = lookup subschema k).
Proof.
  revert parent subschema. induction ks as [|k0 ks IH]; simpl; intros parent subschema H.
  - ok_inv. split; reflexivity.
  - ok_inv. rename o into p1, o0 into s1.
    destruct (collapseKeyword_frame _ _ _ _ _ _ _ Ha) as [Hp1 Hs1].
    destruct (IH _ _ H) as [Hp2 Hs2].
    split.
    + intros k Hk He. rewrite Hp2, Hp1; auto.
    + intros k Hk. rewrite Hs2, Hs1; auto.
Qed.
End Frame.

(** ** Dangling modifiers (C7, C10) *)

Lemma lookup_prune_one (p : object) (exc bound k : string) :
  lookup (if hasOwnProperty p exc && negb (hasOwnProperty p bound)
          then delete p exc else p) k
  = if String.eqb k exc && negb (hasOwnProperty p bound) then None else lookup p k.
Proof.
  destruct (hasOwnProperty p bound); simpl negb;
    rewrite ?andb_false_r, ?andb_true_r; [reflexivity|].
  destruct (hasOwnProperty p exc) eqn:He.
  - destruct (String.eqb_spec k exc) as [->|Hne].
    + apply lookup_delete_same.
    + apply lookup_delete_other. congruence.
  - destruct (String.eqb_spec k exc) as [->|Hne]; [|reflexivity].
    rewrite hasOwnProperty_lookup in He. now destruct (lookup p exc).
Qed.

Lemma lookup_pruneDangling (p : object) (k : string) :
  lookup (pruneDangling p) k
  = if String.eqb k "exclusiveMaximum" && negb (hasOwnProperty p "maximum") then None
    else if String.eqb k "exclusiveMinimum" && negb (hasOwnProperty p "minimum") then None
    else lookup p k.
Proof.
  unfold pruneDangling. rewrite lookup_prune_one.
  rewrite (hasOwnProperty_lookup _ "minimum"), lookup_prune_one.
  simpl (String.eqb "minimum" _). simpl andb.
  rewrite <- hasOwnProperty_lookup. rewrite lookup_prune_one.
  destruct (String.eqb k "exclusiveMinimum" && _), (String.eqb k "exclusiveMaximum" && _);
    reflexivity.
Qed.

Lemma hasOwnProperty_pruneDangling_incl (p : object) (k : string) :
  hasOwnProperty p k = false -> hasOwnProperty (pruneDangling p) k = false.
Proof.
  rewrite !hasOwnProperty_lookup, lookup_pruneDangling.
  destruct (_ && _); [reflexivity|]. destruct (_ && _); auto.
Qed.

Section AppendFacts.
Context {A : Type}.
Implicit Types (o : list (string * A)) (k : string) (v : A).

Lemma lookup_app o1 o2 k :
  lookup (o1 ++ o2) k
  = match lookup o1 k with Some v => Some v | None => lookup o2 k end.
Proof.
  induction o1 as [|[k' v'] o1 IH]; simpl; [reflexivity|].
  destruct (String.eqb k' k); [reflexivity | exact IH].
Qed.


End AppendFacts.




Lemma excKeyword_not_bound keyword :
  excKeyword keyword <> "minimum" /\ excKeyword keyword <> "maximum".
Proof. unfold excKeyword. split; destruct keyword; discriminate. Qed.

(** C10: pruning looks at the parent only.  When the subschema has
    "exclusiveMinimum" without "minimum" (or "exclusiveMaximum" without
    "maximum") and the parent has no such modifier, every successful
    collapse leaves the parent with the modifier of the subschema, value
    unchanged, and with a bound only if it had one before; the subschema
    keeps its modifier. *)
Theorem dangling_modifier_of_subschema_copied
    (n : nat) (vocab : vocabulary) (p : object) (parentPath : path) (s : object)
    (exc bound : string) (p' s' : value) :
  (exc = "exclusiveMinimum" /\ bound = "minimum")
  \/ (exc = "exclusiveMaximum" /\ bound = "maximum") ->
  NoDup (keys s) ->
  hasOwnProperty s exc = true ->
  hasOwnProperty s bound = false ->
  hasOwnProperty p exc = false ->
  (forall k, In k (keys s) ->
             lookup vocab k = Some H_exclusiveComparison -> excKeyword k <> exc) ->
  collapseSchemas (S n) vocab (JObj p) parentPath (JObj s) = Ok (p', s') ->
  exists o' t',
    p' = JObj o' /\ s' = JObj t'
    /\ hasOwnProperty o' exc = true
    /\ get o' exc = get s exc
    /\ hasOwnProperty o' bound = hasOwnProperty p bound
    /\ lookup t' exc = lookup s exc.
Proof.
  intros Hnames Hnd Hsexc Hsbound Hpexc Hvocab H.
  simpl in H. ok_inv. rename o into o', o0 into t'.
  exists o', t'. split; [reflexivity|]. split; [reflexivity|].
  (* the bound is never written *)
  assert (Hbound : lookup o' bound = lookup p bound).
  { destruct (collapseKeywords_frame _ _ _ _ _ _ _ _ Ha) as [Hp _].
    rewrite Hp.
    - rewrite lookup_pruneDangling.
      destruct Hnames as [[_ ->]|[_ ->]]; reflexivity.
    - now apply hasOwnProperty_false_In.
    - intros keyword _ _ E. destruct (excKeyword_not_bound keyword) as [H1 H2].
      destruct Hnames as [[_ ->]|[_ ->]]; congruence. }
  (* the turn of the modifier is a copy *)
  apply hasOwnProperty_In in Hsexc as Hin.
  destruct (in_split _ _ Hin) as (ks1 & ks2 & Hsplit).
  assert (Hnotin : ~ In exc (ks1 ++ ks2)).
  { rewrite Hsplit in Hnd. now apply NoDup_remove_2 in Hnd. }
  rewrite Hsplit, collapseKeywords_app in Ha. ok_inv. rename o into p1, o0 into s1.
  simpl in Ha. ok_inv. rename o into p2, o0 into s2.
  destruct (collapseKeywords_frame _ _ _ _ _ _ _ _ Ha0) as [Hp1 Hs1].
  destruct (collapseKeywords_frame _ _ _ _ _ _ _ _ Ha) as [Hp2 Hs2].
  assert (Hin1 : ~ In exc ks1) by (intros X; apply Hnotin, in_or_app; now left).
  assert (Hin2 : ~ In exc ks2) by (intros X; apply Hnotin, in_or_app; now right).
  assert (Hp1exc : hasOwnProperty p1 exc = false).
  { rewrite hasOwnProperty_lookup, Hp1.
    - rewrite <- hasOwnProperty_lookup.
      now apply hasOwnProperty_pruneDangling_incl.
    - exact Hin1.
    - intros keyword Hk Hv E. apply (Hvocab keyword); [|exact Hv | now symmetry].
      rewrite Hsplit. apply in_or_app. now left. }
  unfold collapseKeyword in Ha1. rewrite Hp1exc in Ha1. ok_inv.
  assert (Hexc : lookup o' exc = Some (get s exc)).
  { rewrite Hp2.
    - rewrite lookup_set_same. unfold get. now rewrite Hs1.
    - exact Hin2.
    - intros keyword Hk Hv E. apply (Hvocab keyword); [|exact Hv | now symmetry].
      rewrite Hsplit. apply in_or_app. right. now right. }
  repeat split.
  - now rewrite hasOwnProperty_lookup, Hexc.
  - unfold get at 1. now rewrite Hexc.
  - now rewrite !hasOwnProperty_lookup, Hbound.
  - rewrite Hs2, Hs1; auto.
Qed.

Lemma dangling_modifier_of_subschema_copied_witness :
  collapseSchemas 1 DRAFT_04 (JObj [("type", JStr "number")]) []
    (JObj [("exclusiveMinimum", JBool true)])
  = Ok (JObj [("type", JStr "number"); ("exclusiveMinimum", JBool true)],
        JObj [("exclusiveMinimum", JBool true)])
  /\ exists o' t',
       JObj [("type", JStr "number"); ("exclusiveMinimum", JBool true)] = JObj o'
       /\ JObj [("exclusiveMinimum", JBool true)] = JObj t'
       /\ hasOwnProperty o' "exclusiveMinimum" = true
       /\ get o' "exclusiveMinimum" = get [("exclusiveMinimum", JBool true)]
                                        "exclusiveMinimum"
       /\ hasOwnProperty o' "minimum"
          = hasOwnProperty [("type", JStr "number")] "minimum"
       /\ lookup t' "exclusiveMinimum"
          = lookup [("exclusiveMinimum", JBool true)] "exclusiveMinimum".
Proof.
  split; [reflexivity|].
  apply (dangling_modifier_of_subschema_copied 0 DRAFT_04
           [("type", JStr "number")] [] [("exclusiveMinimum", JBool true)]
           "exclusiveMinimum" "minimum").
  - left. split; reflexivity.
  - repeat constructor. simpl. tauto.
  - reflexivity.
  - reflexivity.
  - reflexivity.
  - intros k [<-|[]]. discriminate.
  - reflexivity.
Defined.

(** ** The merge of "items" (C3) *)

Section Elements.
Variable collapse : value -> path -> value -> result (value * value).


End Elements.



(** ** The loop over the keywords of the subschema (C1) *)

(** *** On keys that name no member of [Object.prototype] *)

Section KeywordRule.
Variable collapse : value -> path -> value -> result (value * value).
Variable vocab : vocabulary.
Variable parentPath : path.

Lemma spec_keyword_functional k parent subschema r1 r2 :
  spec_keyword collapse vocab parentPath k parent subschema r1 -> spec_keyword collapse vocab parentPath k parent subschema r2 -> r1 = r2.
Proof.
  intros H1 H2. destruct H1, H2; congruence.
Qed.

Lemma spec_keywords_functional ks :
  forall parent subschema r1 r2,
    spec_keywords collapse vocab parentPath ks parent subschema r1 -> spec_keywords collapse vocab parentPath ks parent subschema r2 ->
    r1 = r2.
Proof.
  induction ks as [|k ks IH]; intros parent subschema r1 r2 H1 H2.
  - inversion H1; inversion H2; congruence.
  - inversion H1 as [|? ? ? ? p1 s1 ? Hk1 Hr1|? ? ? ? ? Hk1 Hn1]; subst;
      inversion H2 as [|? ? ? ? p2 s2 ? Hk2 Hr2|? ? ? ? ? Hk2 Hn2]; subst.
    + pose proof (spec_keyword_functional _ _ _ _ _ Hk1 Hk2) as E.
      injection E as -> ->. eauto.
    + pose proof (spec_keyword_functional _ _ _ _ _ Hk1 Hk2) as E.
      exfalso. apply (Hn2 (p1, s1)). now symmetry.
    + pose proof (spec_keyword_functional _ _ _ _ _ Hk1 Hk2) as E.
      exfalso. now apply (Hn1 (p2, s2)).
    + exact (spec_keyword_functional _ _ _ _ _ Hk1 Hk2).
Qed.

Lemma collapseKeyword_spec k parent subschema :
  spec_keyword collapse vocab parentPath k parent subschema
    (collapseKeyword collapse vocab parentPath k parent subschema).
Proof.
  unfold collapseKeyword.
  destruct (hasOwnProperty parent k) eqn:Hk.
  - destruct (lookup vocab k) as [h|] eqn:Hv.
    + now apply spec_handler.
    + now apply spec_pass_through.
  - now apply spec_copy.
Qed.

Lemma collapseKeywords_spec ks :
  forall parent subschema,
    spec_keywords collapse vocab parentPath ks parent subschema
      (collapseKeywords collapse vocab parentPath ks parent subschema).
Proof.
  induction ks as [|k ks IH]; intros parent subschema; simpl.
  - constructor.
  - pose proof (collapseKeyword_spec k parent subschema) as Hk.
    destruct (collapseKeyword collapse vocab parentPath k parent subschema)
      as [[p1 s1]| | |] eqn:E; simpl.
    + eapply spec_next; [exact Hk | apply IH].
    + apply spec_stop; [exact Hk | discriminate].
    + apply spec_stop; [exact Hk | discriminate].
    + apply spec_stop; [exact Hk | discriminate].
Qed.
End KeywordRule.

(** On two object schemas, the model of [collapseSchemas] runs the rule of
    the specification over the keywords of the subschema, in the order of
    [Object.keys], starting from the pruned parent: the handler of the
    vocabulary when the parent has the keyword and a handler is registered,
    nothing when the parent has it and none is registered, a copy of the
    value of the subschema when the parent lacks it; it returns the parent
    in the state the run leaves it in, or the failure that ended the run.
    The rule has one outcome only.  This is the source on keys that name
    no member of [Object.prototype] ([keywordTurn_ordinary] below). *)
Lemma collapseSchemas_keyword_rule
    (n : nat) (vocab : vocabulary) (p : object) (parentPath : path) (s : object) :
  exists r,
    spec_keywords (collapseSchemas n vocab) vocab parentPath
      (keys s) (pruneDangling p) s r
    /\ collapseSchemas (S n) vocab (JObj p) parentPath (JObj s) = returned r
    /\ forall r',
         spec_keywords (collapseSchemas n vocab) vocab parentPath
           (keys s) (pruneDangling p) s r' ->
         r' = r.
Proof.
  exists (collapseKeywords (collapseSchemas n vocab) vocab parentPath
            (keys s) (pruneDangling p) s).
  split; [apply collapseKeywords_spec|]. split.
  - simpl.
    destruct (collapseKeywords _ _ _ _ _ _) as [[p' s']| | |]; reflexivity.
  - intros r' Hr'.
    exact (spec_keywords_functional _ _ _ _ _ _ _ _ Hr' (collapseKeywords_spec _ _ _ _ _ _)).
Qed.

Lemma isPrototypeMember_proto (k : string) :
  isPrototypeMember k = false -> String.eqb k "__proto__" = false.
Proof.
  intros H. destruct (String.eqb_spec k "__proto__") as [->|]; [|reflexivity].
  discriminate H.
Qed.

(** On a key that names no member of [Object.prototype], and for a parent
    that does not hide [hasOwnProperty], the source takes the branch that
    [collapseKeyword] takes. *)
Lemma keywordTurn_ordinary (vocab : vocabulary) (parent : object) (k : string) :
  isPrototypeMember k = false ->
  hasOwnProperty parent "hasOwnProperty" = false ->
  keywordTurn vocab parent k
  = if hasOwnProperty parent k
    then
      match lookup vocab k with
      | Some h => InvokesHandler h
      | None => LeavesParentAlone
      end
    else Assigns.
Proof.
  intros Hk Hp. unfold keywordTurn, vocabularyMember.
  rewrite Hp, (isPrototypeMember_proto _ Hk), Hk.
  destruct (hasOwnProperty parent k); [|reflexivity].
  now destruct (lookup vocab k).
Qed.

Lemma isPrototypeMember_excKeyword (keyword : string) :
  isPrototypeMember (excKeyword keyword) = false.
Proof. reflexivity. Qed.

Lemma ordinaryKeys_In {A : Type} (o : list (string * A)) (k : string) :
  ordinaryKeys o = true -> In k (keys o) -> isPrototypeMember k = false.
Proof.
  unfold ordinaryKeys. intros Ho Hk.
  rewrite forallb_forall in Ho. apply negb_true_iff. now apply Ho.
Qed.

Lemma ordinaryKeys_absent {A : Type} (o : list (string * A)) (k : string) :
  ordinaryKeys o = true -> isPrototypeMember k = true -> hasOwnProperty o k = false.
Proof.
  intros Ho Hk. destruct (hasOwnProperty o k) eqn:E; [|reflexivity].
  apply hasOwnProperty_In in E.
  rewrite (ordinaryKeys_In _ _ Ho E) in Hk. discriminate.
Qed.

(** The same along the whole loop: when neither schema has a key that
    names a member of [Object.prototype], no turn of the loop meets one,
    and the parent never hides [hasOwnProperty]; at every keyword the
    source takes the branch [collapseKeyword] takes. *)
Lemma collapseKeywords_turns_ordinary collapse (vocab : vocabulary) (parentPath : path)
    (p s : object) (ks1 ks2 : list string) (k : string) (p1 s1 : object) :
  ordinaryKeys p = true ->
  ordinaryKeys s = true ->
  keys s = ks1 ++ k :: ks2 ->
  collapseKeywords collapse vocab parentPath ks1 (pruneDangling p) s = Ok (p1, s1) ->
  keywordTurn vocab p1 k
  = if hasOwnProperty p1 k
    then
      match lookup vocab k with
      | Some h => InvokesHandler h
      | None => LeavesParentAlone
      end
    else Assigns.
Proof.
  intros Hp Hs Hks H. apply keywordTurn_ordinary.
  - apply (ordinaryKeys_In s); [exact Hs|]. rewrite Hks. apply in_or_app. right. now left.
  - destruct (collapseKeywords_frame _ _ _ _ _ _ _ _ H) as [Hframe _].
    rewrite hasOwnProperty_lookup, Hframe.
    + rewrite <- hasOwnProperty_lookup.
      apply hasOwnProperty_pruneDangling_incl.
      exact (ordinaryKeys_absent p "hasOwnProperty" Hp eq_refl).
    + intros Hin.
      assert (Hk' : In "hasOwnProperty" (keys s))
        by (rewrite Hks; apply in_or_app; now left).
      pose proof (ordinaryKeys_In _ _ Hs Hk'). discriminate.
    + intros keyword _ _ E.
      pose proof (isPrototypeMember_excKeyword keyword) as Hx.
      rewrite <- E in Hx. discriminate.
Qed.

(** *** On keys that name a member of [Object.prototype] *)

(** C1, where the source departs from it: when the parent has a keyword
    that names a member of [Object.prototype] and the vocabulary registers
    no handler for it, the rule of the specification is pass-through, and
    so is the comment in the loop ("just leave the keyword alone in the
    parent if we don't recognize it"); but the test [vocab[k] !== undefined]
    finds the inherited member, so the source does not leave the parent
    alone: it calls the member with the arguments of a handler, and for
    "__proto__", which is no function, the call fails. *)
Theorem keyword_of_prototype_not_passed_through
    (vocab : vocabulary) (parent : object) (k : string) :
  isPrototypeMember k = true ->
  lookup vocab k = None ->
  hasOwnProperty parent k = true ->
  (forall collapse parentPath subschema,
      spec_keyword collapse vocab parentPath k parent subschema
        (Ok (parent, subschema)))
  /\ keywordTurn vocab parent k <> LeavesParentAlone
  /\ (k = "__proto__" -> keywordTurn vocab parent k = CallsWhatIsNoFunction).
Proof.
  intros Hk Hv Hp. split; [|split].
  - intros collapse parentPath subschema. now apply spec_pass_through.
  - unfold keywordTurn, vocabularyMember. rewrite Hp, Hv, Hk.
    destruct (hasOwnProperty parent "hasOwnProperty"); [discriminate|].
    destruct (String.eqb k "__proto__"); discriminate.
  - intros ->. unfold keywordTurn, vocabularyMember. rewrite Hp, Hv.
    now destruct (hasOwnProperty parent "hasOwnProperty").
Qed.

Lemma keyword_of_prototype_not_passed_through_witness :
  lookup DRAFT_04 "__proto__" = None
  /\ keywordTurn DRAFT_04 [("__proto__", JNum 1)] "__proto__"
     = CallsWhatIsNoFunction.
Proof.
  split; [reflexivity|].
  exact (proj2 (proj2 (keyword_of_prototype_not_passed_through
                         DRAFT_04 [("__proto__", JNum 1)] "__proto__"
                         eq_refl eq_refl eq_refl)) eq_refl).
Defined.

(** ** An unknown dialect (C8) *)

(** With no handler at all, the run over the keywords copies what the
    parent lacks and keeps what it has. *)
Lemma collapseKeywords_no_handler collapse parentPath (s : object) :
  forall (ks : list string) (p : object),
  exists p',
    collapseKeywords collapse [] parentPath ks p s = Ok (p', s)
    /\ forall k,
         lookup p' k
         = match lookup p k with
           | Some v => Some v
           | None => if existsb (String.eqb k) ks then Some (get s k) else None
           end.
Proof.
  induction ks as [|k0 ks IH]; intros p; simpl.
  - exists p. split; [reflexivity|]. intros k. now destruct (lookup p k).
  - unfold collapseKeyword. simpl lookup.
    destruct (hasOwnProperty p k0) eqn:Hk0; simpl bind.
    + destruct (IH p) as (p' & Hr & Hl). exists p'. split; [exact Hr|].
      intros k. rewrite Hl. destruct (lookup p k) eqn:E; [reflexivity|].
      destruct (String.eqb_spec k k0) as [->|Hne]; [|reflexivity].
      rewrite hasOwnProperty_lookup, E in Hk0. discriminate.
    + destruct (IH (set p k0 (get s k0))) as (p' & Hr & Hl).
      exists p'. split; [exact Hr|].
      intros k. rewrite Hl.
      destruct (String.eqb_spec k k0) as [->|Hne].
      * rewrite lookup_set_same. rewrite hasOwnProperty_lookup in Hk0.
        now destruct (lookup p k0).
      * rewrite lookup_set_other by congruence. reflexivity.
Qed.

Lemma existsb_keys {A : Type} (o : list (string * A)) (k : string) :
  existsb (String.eqb k) (keys o) = hasOwnProperty o k.
Proof.
  induction o as [|[k' v'] o IH]; simpl; [reflexivity|].
  rewrite String.eqb_sym. destruct (String.eqb k' k); [reflexivity | exact IH].
Qed.

Lemma collapseSchemas_no_handler_objects n (p : object) parentPath (s : object) :
  exists p',
    collapseSchemas (S n) [] (JObj p) parentPath (JObj s) = Ok (JObj p', JObj s)
    /\ forall k,
         hasOwnProperty p' k
         = hasOwnProperty (pruneDangling p) k || hasOwnProperty s k
         /\ get p' k
            = if hasOwnProperty (pruneDangling p) k
              then get (pruneDangling p) k else get s k.
Proof.
  destruct (collapseKeywords_no_handler (collapseSchemas n []) parentPath s
              (keys s) (pruneDangling p)) as (p' & Hr & Hl).
  exists p'. split.
  - simpl. now rewrite Hr.
  - intros k. split.
    + rewrite !hasOwnProperty_lookup, Hl, existsb_keys.
      rewrite (hasOwnProperty_lookup s).
      destruct (lookup (pruneDangling p) k); [reflexivity|].
      now destruct (lookup s k).
    + rewrite hasOwnProperty_lookup. unfold get at 1 2. rewrite Hl, existsb_keys.
      destruct (lookup (pruneDangling p) k); [reflexivity|].
      destruct (hasOwnProperty s k) eqn:E; [reflexivity|].
      symmetry. now apply get_absent.
Qed.

Lemma collapseSchemas_no_handler_throw fuel p parentPath s e :
  collapseSchemas fuel [] p parentPath s = Throw e ->
  e = CannotCollapseBoolean parentPath.
Proof.
  destruct fuel as [|n]; simpl; [discriminate|].
  destruct (isTrue p || negb (isFalse p) && isFalse s); [congruence|].
  destruct (isFalse p || isTrue s); [discriminate|].
  destruct p as [| | | | | |po]; try discriminate.
  destruct s as [| | | | | |so]; try discriminate.
  destruct (collapseKeywords_no_handler (collapseSchemas n []) parentPath so
              (keys so) (pruneDangling po)) as (p' & Hr & _).
  rewrite Hr. discriminate.
Qed.

Lemma reduceAllOf_no_handler_throw fuel at_ allOf :
  forall node e,
    reduceAllOf fuel [] at_ allOf node = Throw e -> e = CannotCollapseBoolean at_.
Proof.
  induction allOf as [|s allOf IH]; intros node e; simpl; [discriminate|].
  destruct (collapseSchemas fuel [] node at_ s) as [[node' s']| | |] eqn:E; simpl;
    try discriminate.
  - apply IH.
  - intros [= <-]. exact (collapseSchemas_no_handler_throw _ _ _ _ _ E).
Qed.

(** C8, as the claim states it, fails: under an identifier the [switch]
    does not list, a keyword present on both sides does not always keep
    the value of the parent.  A dangling "exclusiveMaximum" of the parent
    is pruned before the keywords are looked at, and the value of the
    subschema is then copied in its place. *)
Lemma unknown_dialect_parent_value_lost :
  effectiveVocabulary "http://example.com/my-schema#" [] = []
  /\ getCollapseAllOfCallback "http://example.com/my-schema#" [] 1
       (JObj [("exclusiveMaximum", JBool true);
              ("allOf", JArr [JObj [("exclusiveMaximum", JBool false)]])])
       [] []
     = Ok (JObj [("exclusiveMaximum", JBool false)]).
Proof. split; reflexivity. Qed.

(** C8, amended: for an identifier other than the two the [switch] lists
    and no extension vocabulary, the vocabulary is empty and no failure is
    raised for the identifier.  Collapsing two object schemas none of whose
    keywords names a member of [Object.prototype] then succeeds, leaves
    the subschema alone, and every keyword that the subschema has and the
    parent still has after its dangling modifiers were pruned keeps the
    value of the parent, the others being copied.  On a node that has no
    such keyword anywhere, the one failure the callback can raise is the
    one for boolean schemas, never a collision or an unsupported keyword.
    Nothing is said of keywords that name a member of [Object.prototype]:
    the empty vocabulary inherits them, and [vocab[k]] finds them. *)
Theorem unknown_dialect_pass_through (metaSchemaUri : string) :
  metaSchemaUri <> draft04 ->
  metaSchemaUri <> draft04Hyper ->
  effectiveVocabulary metaSchemaUri [] = []
  /\ (forall n p parentPath s,
         ordinaryKeys p = true ->
         ordinaryKeys s = true ->
         exists p',
           collapseSchemas (S n) (effectiveVocabulary metaSchemaUri [])
             (JObj p) parentPath (JObj s)
           = Ok (JObj p', JObj s)
           /\ forall k,
                hasOwnProperty p' k
                = hasOwnProperty (pruneDangling p) k || hasOwnProperty s k
                /\ get p' k
                   = if hasOwnProperty (pruneDangling p) k
                     then get (pruneDangling p) k else get s k)
  /\ (forall fuel node path_ parentPath e,
         ordinary node = true ->
         getCollapseAllOfCallback metaSchemaUri [] fuel node path_ parentPath
         = Throw e ->
         e = CannotCollapseBoolean (parentPath ++ path_)).
Proof.
  intros H4 H4h.
  assert (Hv : effectiveVocabulary metaSchemaUri [] = []).
  { unfold effectiveVocabulary. simpl.
    apply String.eqb_neq in H4, H4h. now rewrite H4, H4h. }
  split; [exact Hv|]. split.
  - intros n p parentPath s _ _. rewrite Hv. apply collapseSchemas_no_handler_objects.
  - intros fuel node path_ parentPath e _. unfold getCollapseAllOfCallback.
    rewrite Hv. destruct node as [| | | | | |o]; try discriminate.
    destruct (hasOwnProperty o "allOf"); [|discriminate].
    destruct (get o "allOf") as [| | | | |allOf|]; try discriminate.
    destruct (reduceAllOf fuel [] (parentPath ++ path_) allOf (JObj o))
      as [r| | |] eqn:E; simpl; try discriminate.
    + destruct r; discriminate.
    + intros [= <-]. exact (reduceAllOf_no_handler_throw _ _ _ _ _ E).
Qed.

Lemma unknown_dialect_pass_through_witness :
  effectiveVocabulary "http://json-schema.org/draft-07/schema#" [] = []
  /\ exists p',
       collapseSchemas 1
         (effectiveVocabulary "http://json-schema.org/draft-07/schema#" [])
         (JObj [("title", JStr "a"); ("exclusiveMinimum", JNum 1)]) []
         (JObj [("title", JStr "b"); ("exclusiveMinimum", JNum 2);
                ("type", JStr "null")])
       = Ok (JObj p',
             JObj [("title", JStr "b"); ("exclusiveMinimum", JNum 2);
                   ("type", JStr "null")])
       /\ get p' "title" = JStr "a"
       /\ get p' "exclusiveMinimum" = JNum 2
       /\ get p' "type" = JStr "null".
Proof.
  destruct (unknown_dialect_pass_through "http://json-schema.org/draft-07/schema#")
    as (Hv & Hc & _).
  - apply String.eqb_neq. reflexivity.
  - apply String.eqb_neq. reflexivity.
  - split; [exact Hv|].
    destruct (Hc 0%nat [("title", JStr "a"); ("exclusiveMinimum", JNum 1)] []
                [("title", JStr "b"); ("exclusiveMinimum", JNum 2);
                 ("type", JStr "null")] eq_refl eq_refl)
      as (p' & Hr & Hk).
    exists p'. split; [exact Hr|]. split; [|split].
    + exact (proj2 (Hk "title")).
    + exact (proj2 (Hk "exclusiveMinimum")).
    + exact (proj2 (Hk "type")).
Defined.

(** ** Deep equality on well-formed values *)

Lemma nodupb_NoDup (l : list string) : nodupb l = true <-> NoDup l.
Proof.
  induction l as [|x l IH]; simpl.
  - split; [constructor | reflexivity].
  - rewrite andb_true_iff, negb_true_iff, IH. split.
    + intros [Hx Hl]. constructor; [|exact Hl].
      intros Hin. apply not_true_iff_false in Hx. apply Hx.
      apply existsb_exists. exists x. split; [exact Hin | apply String.eqb_refl].
    + intros H. inversion H as [|? ? Hx Hl]; subst. split; [|exact Hl].
      apply not_true_iff_false. intros E. apply existsb_exists in E.
      destruct E as (y & Hy & E). apply String.eqb_eq in E. now subst.
Qed.

Lemma wellFormed_object (o : object) :
  wellFormed (JObj o) = true ->
  NoDup (keys o) /\ forall k v, lookup o k = Some v -> wellFormed v = true.
Proof.
  simpl. rewrite andb_true_iff, nodupb_NoDup, forallb_forall.
  intros [Hnd Hall]. split; [exact Hnd|].
  intros k v Hl. exact (Hall (k, v) (lookup_In _ _ _ Hl)).
Qed.

Lemma wellFormed_array (l : list value) :
  wellFormed (JArr l) = true -> Forall (fun x => wellFormed x = true) l.
Proof. simpl. rewrite forallb_forall, Forall_forall. auto. Qed.

Lemma isEqual_arrays (xs ys : list value) :
  isEqual (JArr xs) (JArr ys) = all2 isEqual xs ys.
Proof.
  simpl. revert ys. induction xs as [|x xs IH]; intros [|y ys]; simpl; try reflexivity.
  now rewrite IH.
Qed.

Lemma isEqual_objects (xs ys : object) :
  isEqual (JObj xs) (JObj ys)
  = Nat.eqb (List.length xs) (List.length ys) && forallb (sameProperty ys) xs.
Proof.
  simpl. f_equal. induction xs as [|[k v] xs IH]; simpl; [reflexivity|].
  now rewrite IH.
Qed.

Lemma isEqual_trans (a : value) :
  forall b c, isEqual a b = true -> isEqual b c = true -> isEqual a c = true.
Proof.
  induction a as [| |x|x|x|xs IH|xs IH] using value_ind;
    intros b c Hab Hbc;
    destruct b as [| |y|y|y|ys|ys]; try (simpl in Hab; discriminate Hab);
    destruct c as [| |z|z|z|zs|zs]; try (simpl in Hbc; discriminate Hbc).
  - reflexivity.
  - reflexivity.
  - simpl in *. apply Bool.eqb_prop in Hab, Hbc. subst. apply Bool.eqb_reflx.
  - simpl in *. exact (Qeq_bool_trans _ _ _ Hab Hbc).
  - simpl in *. apply String.eqb_eq in Hab, Hbc. subst. apply String.eqb_refl.
  - rewrite isEqual_arrays in *. revert ys zs Hab Hbc.
    induction IH as [|x xs Hx _ IHxs]; intros [|y ys] [|z zs] Hab Hbc;
      simpl in *; try discriminate; [reflexivity|].
    apply andb_true_iff in Hab as [H1 H2]. apply andb_true_iff in Hbc as [H3 H4].
    apply andb_true_iff. split; [exact (Hx _ _ H1 H3) | exact (IHxs _ _ H2 H4)].
  - rewrite isEqual_objects in *.
    apply andb_true_iff in Hab as [Hl1 H1]. apply andb_true_iff in Hbc as [Hl2 H2].
    apply andb_true_iff. split.
    + apply Nat.eqb_eq in Hl1, Hl2. apply Nat.eqb_eq. congruence.
    + rewrite forallb_forall in *. rewrite Forall_forall in IH.
      intros [k v] Hin. specialize (H1 _ Hin). unfold sameProperty in *. simpl in *.
      destruct (lookup ys k) as [w|] eqn:Ew; [|discriminate].
      specialize (H2 _ (lookup_In _ _ _ Ew)). simpl in H2.
      destruct (lookup zs k) as [u|]; [|discriminate].
      exact (IH _ Hin _ _ H1 H2).
Qed.

Lemma isEqual_refl (a : value) : wellFormed a = true -> isEqual a a = true.
Proof.
  induction a as [| |x|x|x|xs IH|xs IH] using value_ind; intros Hwf.
  - reflexivity.
  - reflexivity.
  - apply Bool.eqb_reflx.
  - apply Qeq_bool_refl.
  - apply String.eqb_refl.
  - rewrite isEqual_arrays. apply wellFormed_array in Hwf.
    induction IH as [|x xs Hx _ IHxs]; simpl; [reflexivity|].
    inversion Hwf; subst. apply andb_true_iff. split; auto.
  - rewrite isEqual_objects, Nat.eqb_refl. simpl.
    destruct (wellFormed_object _ Hwf) as [Hnd Hvals].
    rewrite forallb_forall. rewrite Forall_forall in IH.
    intros [k v] Hin. unfold sameProperty. simpl.
    rewrite (In_lookup _ _ _ Hnd Hin).
    apply (IH _ Hin). exact (Hvals k v (In_lookup _ _ _ Hnd Hin)).
Qed.

Lemma isEqual_sym (a : value) :
  forall b, wellFormed a = true -> wellFormed b = true ->
            isEqual a b = true -> isEqual b a = true.
Proof.
  induction a as [| |x|x|x|xs IH|xs IH] using value_ind;
    intros b Ha Hb Hab;
    destruct b as [| |y|y|y|ys|ys]; try (simpl in Hab; discriminate Hab).
  - reflexivity.
  - reflexivity.
  - simpl in *. apply Bool.eqb_prop in Hab. subst. apply Bool.eqb_reflx.
  - simpl in *. now apply Qeq_bool_sym.
  - simpl in *. now rewrite String.eqb_sym.
  - rewrite isEqual_arrays in *.
    apply wellFormed_array in Ha, Hb. revert ys Hb Hab.
    induction IH as [|x xs Hx _ IHxs]; intros [|y ys] Hb Hab;
      simpl in *; try discriminate; [reflexivity|].
    inversion Ha as [|? ? Hwx Hwxs]; inversion Hb as [|? ? Hwy Hwys]; subst.
    apply andb_true_iff in Hab as [Hxy Hrest].
    apply andb_true_iff. split; [now apply Hx | now apply IHxs].
  - rewrite isEqual_objects in *.
    destruct (wellFormed_object _ Ha) as [Hndx Hvx].
    destruct (wellFormed_object _ Hb) as [Hndy Hvy].
    apply andb_true_iff in Hab as [Hlen Hall].
    apply Nat.eqb_eq in Hlen.
    apply andb_true_iff. split; [apply Nat.eqb_eq; congruence|].
    rewrite forallb_forall in *. rewrite Forall_forall in IH.
    assert (Hincl : incl (keys xs) (keys ys)).
    { intros k Hk. apply in_map_iff in Hk as ([k' v] & <- & Hin). simpl.
      specialize (Hall _ Hin). unfold sameProperty in Hall. simpl in Hall.
      destruct (lookup ys k') as [w|] eqn:E; [|discriminate].
      apply lookup_In in E. change k' with (fst (k', w)). now apply in_map. }
    assert (Hincl' : incl (keys ys) (keys xs)).
    { apply NoDup_length_incl; [exact Hndx | | exact Hincl].
      unfold keys. rewrite !length_map. lia. }
    intros [k w] Hin. unfold sameProperty. simpl.
    assert (Hk : In k (keys xs)).
    { apply Hincl'. change k with (fst (k, w)). now apply in_map. }
    apply in_map_iff in Hk as ([k' v] & Hfst & Hinx). simpl in Hfst. subst k'.
    rewrite (In_lookup _ _ _ Hndx Hinx).
    specialize (Hall _ Hinx). unfold sameProperty in Hall. simpl in Hall.
    rewrite (In_lookup _ _ _ Hndy Hin) in Hall.
    apply (IH _ Hinx); [| | exact Hall].
    + exact (Hvx k v (In_lookup _ _ _ Hndx Hinx)).
    + exact (Hvy k w (In_lookup _ _ _ Hndy Hin)).
Qed.

(** ** Arrays as sets, up to deep equality *)

Lemma includesWith_app (l1 l2 : list value) (x : value) :
  includesWith isEqual (l1 ++ l2) x
  = includesWith isEqual l1 x || includesWith isEqual l2 x.
Proof. unfold includesWith. apply existsb_app. Qed.

Lemma includesWith_trans (l : list value) (x y : value) :
  isEqual x y = true -> includesWith isEqual l y = true ->
  includesWith isEqual l x = true.
Proof.
  unfold includesWith. rewrite !existsb_exists.
  intros Hxy (z & Hz & Hyz). exists z. split; [exact Hz|].
  exact (isEqual_trans _ _ _ Hxy Hyz).
Qed.

Lemma includesWith_uniqWith_from (l acc : list value) (x : value) :
  includesWith isEqual
    (fold_left (fun result y =>
                  if includesWith isEqual result y then result else result ++ [y])
               l acc) x
  = includesWith isEqual acc x || includesWith isEqual l x.
Proof.
  revert acc. induction l as [|y l IH]; intros acc; simpl.
  - now rewrite orb_false_r.
  - rewrite IH. destruct (includesWith isEqual acc y) eqn:Hy.
    + destruct (isEqual x y) eqn:Hxy; simpl; [|reflexivity].
      rewrite (includesWith_trans acc x y Hxy Hy). reflexivity.
    + rewrite includesWith_app. simpl. rewrite orb_false_r, orb_assoc. reflexivity.
Qed.

Lemma includesWith_uniqWith (l : list value) (x : value) :
  includesWith isEqual (uniqWith isEqual l) x = includesWith isEqual l x.
Proof. unfold uniqWith. now rewrite includesWith_uniqWith_from. Qed.

Lemma In_uniqWith_from {A : Type} (cmp : A -> A -> bool) (l acc : list A) (y : A) :
  In y (fold_left (fun result x =>
                     if includesWith cmp result x then result else result ++ [x])
                  l acc) ->
  In y acc \/ In y l.
Proof.
  revert acc. induction l as [|x l IH]; intros acc; simpl; [auto|].
  intros H. apply IH in H. destruct (includesWith cmp acc x).
  - tauto.
  - destruct H as [H|H]; [|tauto].
    apply in_app_or in H. simpl in H. tauto.
Qed.

Lemma In_uniqWith {A : Type} (cmp : A -> A -> bool) (l : list A) (y : A) :
  In y (uniqWith cmp l) -> In y l.
Proof.
  intros H. apply In_uniqWith_from in H. destruct H as [[]|H]. exact H.
Qed.

Lemma includesWith_exists {A : Type} (cmp : A -> A -> bool) (l : list A) (x : A) :
  includesWith cmp l x = true <-> exists y, In y l /\ cmp x y = true.
Proof. unfold includesWith. apply existsb_exists. Qed.


(** ** The five merges that do not depend on the order *)











(** ** Folding two subschemas in either order (C6) *)


















(** ** Fuel

    The recursion of [collapseSchemas] follows the nesting of the objects
    of the subschema: more fuel than that nesting is enough, and more fuel
    than enough changes nothing. *)

Lemma nesting_element (l : list value) (x : value) :
  In x l -> nesting x <= nesting (JArr l).
Proof.
  induction l as [|y l IH]; simpl; [tauto|].
  intros [->|H]; [lia|]. specialize (IH H). simpl in IH. lia.
Qed.

Lemma nesting_get (o : object) (k : string) : nesting (get o k) < nesting (JObj o).
Proof.
  unfold get. induction o as [|[k' v] o IH]; simpl; [lia|].
  destruct (String.eqb k' k); [lia|]. simpl in IH. lia.
Qed.

Lemma nesting_set (o : object) (k : string) (v : value) :
  nesting (JObj (set o k v)) <= Nat.max (nesting (JObj o)) (S (nesting v)).
Proof.
  induction o as [|[k' v'] o IH]; simpl; [lia|].
  destruct (String.eqb k' k); simpl in *; lia.
Qed.

Lemma nesting_set_below (o : object) (k : string) (v : value) :
  nesting v < nesting (JObj o) -> nesting (JObj (set o k v)) <= nesting (JObj o).
Proof. intros H. pose proof (nesting_set o k v). lia. Qed.

Lemma nesting_mutated_below (o : object) (k : string) (v : value) :
  nesting v < nesting (JObj o) -> nesting (JObj (mutated o k v)) <= nesting (JObj o).
Proof.
  intros H. unfold mutated. destruct (hasOwnProperty o k); [|lia].
  now apply nesting_set_below.
Qed.

Section Fuel.
Variable collapse : value -> path -> value -> result (value * value).

Lemma collapseElements_shrinks parentPath keyword :
  shrinks collapse ->
  forall ps ss i ps' ss',
    collapseElements collapse parentPath keyword i ps ss = Ok (ps', ss') ->
    nesting (JArr ss') <= nesting (JArr ss).
Proof.
  intros Hs. induction ps as [|p ps IH]; intros ss i ps' ss' H.
  - simpl in H. ok_inv. lia.
  - destruct ss as [|s ss]; simpl in H; ok_inv; [lia|].
    specialize (Hs _ _ _ _ _ Ha). specialize (IH _ _ _ _ Ha0). simpl in *. lia.
Qed.

Lemma collapseElements_fuelled parentPath keyword d :
  fuelled collapse d ->
  forall ps ss i,
    nesting (JArr ss) < d ->
    collapseElements collapse parentPath keyword i ps ss <> OutOfFuel.
Proof.
  intros Hf. induction ps as [|p ps IH]; intros ss i Hd; simpl; [discriminate|].
  destruct ss as [|s ss]; [discriminate|].
  simpl in Hd.
  destruct (collapse p _ s) as [[p' s']| | |] eqn:E; simpl; try discriminate.
  - destruct (collapseElements collapse parentPath keyword (S i) ps ss)
      as [[ps' ss']| | |] eqn:E2; simpl; try discriminate.
    exfalso. apply (IH ss (S i)); [simpl; lia | exact E2].
  - exfalso. refine (Hf _ _ _ _ E). lia.
Qed.

Lemma collapseProperties_shrinks parentPath keyword :
  shrinks collapse ->
  forall props pv sv pv' sv',
    collapseProperties collapse parentPath keyword props pv sv = Ok (pv', sv') ->
    nesting (JObj sv') <= nesting (JObj sv).
Proof.
  intros Hs. induction props as [|prop props IH]; intros pv sv pv' sv' H; simpl in H.
  - ok_inv. lia.
  - destruct (negb (hasOwnProperty pv prop)); [exact (IH _ _ _ _ H)|].
    destruct (hasOwnProperty sv prop); [|exact (IH _ _ _ _ H)].
    ok_inv. specialize (Hs _ _ _ _ _ Ha). specialize (IH _ _ _ _ H).
    pose proof (nesting_get sv prop).
    pose proof (nesting_set_below sv prop v0). lia.
Qed.

Lemma collapseProperties_fuelled parentPath keyword d :
  shrinks collapse -> fuelled collapse d ->
  forall props pv sv,
    nesting (JObj sv) <= d ->
    collapseProperties collapse parentPath keyword props pv sv <> OutOfFuel.
Proof.
  intros Hs Hf. induction props as [|prop props IH]; intros pv sv Hd; simpl;
    [discriminate|].
  destruct (negb (hasOwnProperty pv prop)); [now apply IH|].
  destruct (hasOwnProperty sv prop); [|now apply IH].
  pose proof (nesting_get sv prop) as Hget.
  destruct (collapse (get pv prop) _ (get sv prop)) as [[p' s']| | |] eqn:E; simpl;
    try discriminate.
  - apply IH. specialize (Hs _ _ _ _ _ E).
    pose proof (nesting_set_below sv prop s'). lia.
  - exfalso. refine (Hf _ _ _ _ E). lia.
Qed.

Lemma invoke_shrinks h parent parentPath subschema keyword parent' subschema' :
  shrinks collapse ->
  invoke collapse h parent parentPath subschema keyword = Ok (parent', subschema') ->
  nesting (JObj subschema') <= nesting (JObj subschema).
Proof.
  intros Hs H. pose proof (nesting_get subschema keyword) as Hget.
  destruct h; simpl in H.
  - unfold _or in H. ok_inv. lia.
  - unfold _maxOfMin in H.
    destruct (get parent keyword), (get subschema keyword); ok_inv. lia.
  - unfold _minOfMax in H.
    destruct (get parent keyword), (get subschema keyword); ok_inv. lia.
  - unfold _exclusiveComparison in H.
    destruct (get parent keyword), (get subschema keyword); ok_inv.
    destruct (_ && _); [ok_inv; lia|].
    destruct (chooseSubValue _ _ _); ok_inv; lia.
  - unfold _arrayUnion in H. ok_inv. lia.
  - unfold _arrayIntersection in H. ok_inv. lia.
  - unfold _singleValueOrArrayIntersection, _arrayIntersection in H. simpl in H.
    assert (Hwrap : nesting (JObj (if negb (isArray (get subschema keyword))
                                   then set subschema keyword
                                          (JArr [get subschema keyword])
                                   else subschema))
                    <= nesting (JObj subschema)).
    { destruct (negb (isArray (get subschema keyword))); [|lia].
      apply nesting_set_below.
      change (nesting (JArr [get subschema keyword]))
        with (Nat.max (nesting (get subschema keyword)) 0).
      lia. }
    match type of H with
    | match get ?P _ with _ => _ end = _ =>
        destruct (get P keyword) as [| | | | |[|v [|]]|]
    end; ok_inv; exact Hwrap.
  - unfold _collapseArrayOrSingleSchemas in H.
    destruct (_ && _); [discriminate|].
    destruct (negb _); [discriminate|].
    destruct (get parent keyword) as [| | | | |ps|] eqn:Ep;
      destruct (get subschema keyword) as [| | | | |ss|] eqn:Es; ok_inv;
      try (specialize (Hs _ _ _ _ _ Ha); apply nesting_mutated_below;
           simpl in *; lia).
    apply collapseElements_shrinks in Ha; [|exact Hs].
    apply nesting_set_below. lia.
  - unfold _collapseObjectOfSchemas in H.
    destruct (_ && _); [discriminate|].
    destruct (get parent keyword) as [| | | | | |pv] eqn:Ep; try discriminate.
    destruct (get subschema keyword) as [| | | | | |sv] eqn:Es; try discriminate.
    ok_inv. apply collapseProperties_shrinks in Ha; [|exact Hs].
    apply nesting_set_below. lia.
  - unfold _parentWins in H. ok_inv. lia.
  - unfold _collision in H. destruct (negb _); ok_inv. lia.
  - unfold _notSupported in H. discriminate.
Qed.

Lemma invoke_fuelled h parent parentPath subschema keyword d :
  shrinks collapse -> fuelled collapse d ->
  nesting (JObj subschema) <= d ->
  invoke collapse h parent parentPath subschema keyword <> OutOfFuel.
Proof.
  intros Hs Hf Hd. pose proof (nesting_get subschema keyword) as Hget.
  destruct h; simpl.
  - discriminate.
  - unfold _maxOfMin.
    destruct (get parent keyword), (get subschema keyword); discriminate.
  - unfold _minOfMax.
    destruct (get parent keyword), (get subschema keyword); discriminate.
  - unfold _exclusiveComparison.
    destruct (get parent keyword), (get subschema keyword); try discriminate.
    destruct (_ && _); [discriminate|].
    destruct (chooseSubValue _ _ _); discriminate.
  - discriminate.
  - discriminate.
  - unfold _singleValueOrArrayIntersection, _arrayIntersection. simpl.
    match goal with
    | |- match get ?P _ with _ => _ end <> _ =>
        destruct (get P keyword) as [| | | | |[|v [|]]|]
    end; discriminate.
  - unfold _collapseArrayOrSingleSchemas.
    destruct (_ && _); [discriminate|].
    destruct (negb _); [discriminate|].
    assert (Hsingle : forall pv,
               (' (p', s') <- collapse pv (parentPath ++ [Key keyword])
                                (get subschema keyword) ;;
                Ok (mutated parent keyword p', mutated subschema keyword s'))
               <> (OutOfFuel : result state)).
    { intros pv.
      destruct (collapse pv _ (get subschema keyword)) as [[p' s']| | |] eqn:E;
        simpl; try discriminate.
      exfalso. refine (Hf _ _ _ _ E). lia. }
    destruct (get parent keyword) as [| | | | |ps|] eqn:Ep;
      try (apply Hsingle).
    destruct (get subschema keyword) as [| | | | |ss|] eqn:Es;
      try (apply Hsingle).
    destruct (collapseElements collapse parentPath keyword 0 ps ss)
      as [[ps' ss']| | |] eqn:E; simpl; try discriminate.
    exfalso. apply (collapseElements_fuelled parentPath keyword d Hf ps ss 0);
      [lia | exact E].
  - unfold _collapseObjectOfSchemas.
    destruct (_ && _); [discriminate|].
    destruct (get parent keyword) as [| | | | | |pv] eqn:Ep; try discriminate.
    destruct (get subschema keyword) as [| | | | | |sv] eqn:Es; try discriminate.
    destruct (collapseProperties collapse parentPath keyword
                (union (keys pv) (keys sv)) pv sv) as [[pv' sv']| | |] eqn:E;
      simpl; try discriminate.
    exfalso.
    apply (collapseProperties_fuelled parentPath keyword d Hs Hf
             (union (keys pv) (keys sv)) pv sv); [lia | exact E].
  - discriminate.
  - unfold _collision. destruct (negb _); discriminate.
  - discriminate.
Qed.
End Fuel.

Section FuelOfKeywords.
Variable collapse : value -> path -> value -> result (value * value).
Variable vocab : vocabulary.
Variable parentPath : path.

Lemma collapseKeyword_shrinks k parent subschema parent' subschema' :
  shrinks collapse ->
  collapseKeyword collapse vocab parentPath k parent subschema
  = Ok (parent', subschema') ->
  nesting (JObj subschema') <= nesting (JObj subschema).
Proof.
  intros Hs. unfold collapseKeyword.
  destruct (hasOwnProperty parent k).
  - destruct (lookup vocab k) as [h|].
    + now apply invoke_shrinks.
    + intros H. ok_inv. lia.
  - intros H. ok_inv. lia.
Qed.

Lemma collapseKeywords_shrinks :
  shrinks collapse ->
  forall ks parent subschema parent' subschema',
    collapseKeywords collapse vocab parentPath ks parent subschema
    = Ok (parent', subschema') ->
    nesting (JObj subschema') <= nesting (JObj subschema).
Proof.
  intros Hs. induction ks as [|k ks IH]; intros parent subschema parent' subschema' H;
    simpl in H; ok_inv; [lia|].
  apply collapseKeyword_shrinks in Ha; [|exact Hs].
  specialize (IH _ _ _ _ H). lia.
Qed.

Lemma collapseKeywords_fuelled d :
  shrinks collapse -> fuelled collapse d ->
  forall ks parent subschema,
    nesting (JObj subschema) <= d ->
    collapseKeywords collapse vocab parentPath ks parent subschema <> OutOfFuel.
Proof.
  intros Hs Hf. induction ks as [|k ks IH]; intros parent subschema Hd; simpl;
    [discriminate|].
  destruct (collapseKeyword collapse vocab parentPath k parent subschema)
    as [[p1 s1]| | |] eqn:E; simpl; try discriminate.
  - apply IH. apply collapseKeyword_shrinks in E; [lia | exact Hs].
  - exfalso. revert E. unfold collapseKeyword.
    destruct (hasOwnProperty parent k); [|discriminate].
    destruct (lookup vocab k) as [h|]; [|discriminate].
    now apply (invoke_fuelled collapse h parent parentPath subschema k d).
Qed.
End FuelOfKeywords.

Lemma collapseSchemas_shrinks vocab :
  forall fuel, shrinks (collapseSchemas fuel vocab).
Proof.
  induction fuel as [|n IH]; intros p parentPath s p' s' H; simpl in H;
    [discriminate|].
  destruct (isTrue p || negb (isFalse p) && isFalse s); [discriminate|].
  destruct (isFalse p || isTrue s); [ok_inv; lia|].
  destruct p as [| | | | | |po]; try discriminate.
  destruct s as [| | | | | |so]; try discriminate.
  ok_inv. exact (collapseKeywords_shrinks _ _ _ IH _ _ _ _ _ Ha).
Qed.

(** With more fuel than the subschema has nested objects,
    [collapseSchemas] does not run out of it. *)
Lemma collapseSchemas_fuel vocab :
  forall fuel p parentPath s,
    nesting s < fuel -> collapseSchemas fuel vocab p parentPath s <> OutOfFuel.
Proof.
  induction fuel as [|n IH]; intros p parentPath s Hd; [lia|]. simpl.
  destruct (isTrue p || negb (isFalse p) && isFalse s); [discriminate|].
  destruct (isFalse p || isTrue s); [discriminate|].
  destruct p as [| | | | | |po]; try discriminate.
  destruct s as [| | | | | |so]; try discriminate.
  destruct (collapseKeywords (collapseSchemas n vocab) vocab parentPath
              (keys so) (pruneDangling po) so) as [[p' s']| | |] eqn:E; simpl;
    try discriminate.
  exfalso.
  apply (collapseKeywords_fuelled (collapseSchemas n vocab) vocab parentPath n
           (collapseSchemas_shrinks vocab n) IH (keys so) (pruneDangling po) so);
    [lia | exact E].
Qed.

(** ** More fuel changes no answer *)

Section MoreFuel.
Variables collapse1 collapse2 : value -> path -> value -> result (value * value).

Hypothesis Hext : extends collapse1 collapse2.

Lemma bind_fuel {A B : Type} (c : result A) (f : A -> result B) :
  bind c f <> OutOfFuel -> c <> OutOfFuel.
Proof. destruct c; simpl; congruence. Qed.

Lemma collapseElements_extends parentPath keyword :
  forall ps ss i,
    collapseElements collapse1 parentPath keyword i ps ss <> OutOfFuel ->
    collapseElements collapse2 parentPath keyword i ps ss
    = collapseElements collapse1 parentPath keyword i ps ss.
Proof.
  induction ps as [|p ps IH]; intros ss i H; [reflexivity|].
  destruct ss as [|s ss]; [reflexivity|]. simpl in *.
  rewrite (Hext _ _ _ (bind_fuel _ _ H)).
  destruct (collapse1 p _ s) as [[p' s']| | |]; simpl in *; try reflexivity.
  rewrite (IH _ _ (bind_fuel _ _ H)). reflexivity.
Qed.

Lemma collapseProperties_extends parentPath keyword :
  forall props pv sv,
    collapseProperties collapse1 parentPath keyword props pv sv <> OutOfFuel ->
    collapseProperties collapse2 parentPath keyword props pv sv
    = collapseProperties collapse1 parentPath keyword props pv sv.
Proof.
  induction props as [|prop props IH]; intros pv sv H; [reflexivity|].
  simpl in *.
  destruct (negb (hasOwnProperty pv prop)); [now apply IH|].
  destruct (hasOwnProperty sv prop); [|now apply IH].
  rewrite (Hext _ _ _ (bind_fuel _ _ H)).
  destruct (collapse1 (get pv prop) _ (get sv prop)) as [[p' s']| | |];
    simpl in *; try reflexivity.
  now apply IH.
Qed.

Lemma invoke_extends h parent parentPath subschema keyword :
  invoke collapse1 h parent parentPath subschema keyword <> OutOfFuel ->
  invoke collapse2 h parent parentPath subschema keyword
  = invoke collapse1 h parent parentPath subschema keyword.
Proof.
  destruct h; simpl; try reflexivity.
  - unfold _collapseArrayOrSingleSchemas.
    destruct (_ && _); [reflexivity|].
    destruct (negb _); [reflexivity|].
    intros H.
    assert (Hsingle :
              collapse1 (get parent keyword) (parentPath ++ [Key keyword])
                (get subschema keyword) <> OutOfFuel ->
              collapse2 (get parent keyword) (parentPath ++ [Key keyword])
                (get subschema keyword)
              = collapse1 (get parent keyword) (parentPath ++ [Key keyword])
                  (get subschema keyword)) by apply Hext.
    destruct (get parent keyword) as [| | | | |ps|];
      try (rewrite Hsingle by exact (bind_fuel _ _ H); reflexivity).
    destruct (get subschema keyword) as [| | | | |ss|];
      try (rewrite Hsingle by exact (bind_fuel _ _ H); reflexivity).
    rewrite (collapseElements_extends _ _ _ _ _ (bind_fuel _ _ H)). reflexivity.
  - unfold _collapseObjectOfSchemas.
    destruct (_ && _); [reflexivity|].
    destruct (get parent keyword) as [| | | | | |pv]; try reflexivity.
    destruct (get subschema keyword) as [| | | | | |sv]; try reflexivity.
    intros H.
    rewrite (collapseProperties_extends _ _ _ _ _ (bind_fuel _ _ H)). reflexivity.
Qed.

Lemma collapseKeywords_extends vocab parentPath :
  forall ks parent subschema,
    collapseKeywords collapse1 vocab parentPath ks parent subschema <> OutOfFuel ->
    collapseKeywords collapse2 vocab parentPath ks parent subschema
    = collapseKeywords collapse1 vocab parentPath ks parent subschema.
Proof.
  induction ks as [|k ks IH]; intros parent subschema H; [reflexivity|].
  simpl in *.
  assert (Hk : collapseKeyword collapse2 vocab parentPath k parent subschema
               = collapseKeyword collapse1 vocab parentPath k parent subschema).
  { pose proof (bind_fuel _ _ H) as Hk. revert Hk. unfold collapseKeyword.
    destruct (hasOwnProperty parent k); [|reflexivity].
    destruct (lookup vocab k) as [h|]; [|reflexivity].
    apply invoke_extends. }
  rewrite Hk.
  destruct (collapseKeyword collapse1 vocab parentPath k parent subschema)
    as [[p1 s1]| | |]; simpl in *; try reflexivity.
  now apply IH.
Qed.
End MoreFuel.

Lemma collapseSchemas_more_fuel vocab :
  forall fuel, extends (collapseSchemas fuel vocab) (collapseSchemas (S fuel) vocab).
Proof.
  induction fuel as [|n IH]; intros p parentPath s H.
  - now destruct H.
  - remember (S n) as m. simpl. subst m. simpl in H |- *.
    destruct (isTrue p || negb (isFalse p) && isFalse s); [reflexivity|].
    destruct (isFalse p || isTrue s); [reflexivity|].
    destruct p as [| | | | | |po]; try reflexivity.
    destruct s as [| | | | | |so]; try reflexivity.
    rewrite (collapseKeywords_extends _ _ IH); [reflexivity|].
    exact (bind_fuel _ _ H).
Qed.

(** Any answer other than [OutOfFuel] is the answer for every larger fuel;
    with [collapseSchemas_fuel], every call has one. *)
Lemma collapseSchemas_fuel_monotone vocab fuel fuel' p parentPath s :
  fuel <= fuel' ->
  collapseSchemas fuel vocab p parentPath s <> OutOfFuel ->
  collapseSchemas fuel' vocab p parentPath s = collapseSchemas fuel vocab p parentPath s.
Proof.
  intros Hle H. induction Hle as [|m Hle IH]; [reflexivity|].
  rewrite <- IH. apply collapseSchemas_more_fuel. now rewrite IH.
Qed.

(** * Further properties of the collapser *)

(** ** The keywords of parent and subschema through a collapse *)

Lemma hasOwnProperty_mutated (o : object) k k' v :
  hasOwnProperty (mutated o k v) k' = hasOwnProperty o k'.
Proof.
  unfold mutated. destruct (hasOwnProperty o k) eqn:E; [|reflexivity].
  rewrite hasOwnProperty_set. destruct (String.eqb_spec k k') as [<-|]; [|reflexivity].
  now rewrite E.
Qed.

Lemma keys_mutated (o : object) k v : keys (mutated o k v) = keys o.
Proof.
  unfold mutated. destruct (hasOwnProperty o k) eqn:E; [|reflexivity].
  now rewrite keys_set, E.
Qed.

Lemma keys_set_present {A : Type} (o : list (string * A)) k v :
  hasOwnProperty o k = true -> keys (set o k v) = keys o.
Proof. intros H. now rewrite keys_set, H. Qed.

Lemma hasOwnProperty_set_keeps {A : Type} (o : list (string * A)) k k' v :
  hasOwnProperty o k' = true -> hasOwnProperty (set o k v) k' = true.
Proof. intros H. rewrite hasOwnProperty_set, H. apply orb_true_r. Qed.

Section KeysThroughMerge.
Variable collapse : value -> path -> value -> result (value * value).

(** A collapser function deletes no key of the parent, and leaves the
    subschema with the keys it had. *)
Lemma invoke_keys h parent parentPath subschema keyword parent' subschema' :
  hasOwnProperty subschema keyword = true ->
  invoke collapse h parent parentPath subschema keyword = Ok (parent', subschema') ->
  (forall k, hasOwnProperty parent k = true -> hasOwnProperty parent' k = true)
  /\ keys subschema' = keys subschema.
Proof.
  intros Hsk H.
  assert (Hkeep : forall (o : object) k v k',
             hasOwnProperty o k' = true -> hasOwnProperty (set o k v) k' = true)
    by (intros; now apply hasOwnProperty_set_keeps).
  assert (Hmut : forall (o : object) k v k',
             hasOwnProperty o k' = true -> hasOwnProperty (mutated o k v) k' = true)
    by (intros; now rewrite hasOwnProperty_mutated).
  assert (Hks : forall v, keys (set subschema keyword v) = keys subschema)
    by (intros; now apply keys_set_present).
  destruct h; simpl in H.
  - unfold _or in H. ok_inv. split; auto.
  - unfold _maxOfMin in H.
    destruct (get parent keyword), (get subschema keyword); ok_inv. split; auto.
  - unfold _minOfMax in H.
    destruct (get parent keyword), (get subschema keyword); ok_inv. split; auto.
  - unfold _exclusiveComparison in H.
    destruct (get parent keyword), (get subschema keyword); ok_inv.
    destruct (_ && _); [ok_inv; split; auto|].
    destruct (chooseSubValue _ _ _); ok_inv; split; auto.
  - unfold _arrayUnion in H. ok_inv. split; auto.
  - unfold _arrayIntersection in H. ok_inv. split; auto.
  - unfold _singleValueOrArrayIntersection, _arrayIntersection in H. simpl in H.
    match type of H with
    | match get ?P _ with _ => _ end = _ =>
        destruct (get P keyword) as [| | | | |[|v [|]]|]
    end; ok_inv;
      (split;
       [ intros k Hk; destruct (negb (isArray (get parent keyword))); auto
       | destruct (negb (isArray (get subschema keyword))); auto ]).
  - unfold _collapseArrayOrSingleSchemas in H.
    destruct (_ && _); [discriminate|].
    destruct (negb _); [discriminate|].
    destruct (get parent keyword), (get subschema keyword); ok_inv;
      (split; [auto | first [apply keys_mutated | apply Hks]]).
  - unfold _collapseObjectOfSchemas in H.
    destruct (_ && _); [discriminate|].
    destruct (get parent keyword), (get subschema keyword); ok_inv.
    split; auto.
  - unfold _parentWins in H. ok_inv. split; auto.
  - unfold _collision in H. destruct (negb _); ok_inv. split; auto.
  - unfold _notSupported in H. discriminate.
Qed.

Lemma collapseKeyword_keys vocab parentPath k parent subschema parent' subschema' :
  hasOwnProperty subschema k = true ->
  collapseKeyword collapse vocab parentPath k parent subschema
  = Ok (parent', subschema') ->
  (forall k', hasOwnProperty parent k' = true -> hasOwnProperty parent' k' = true)
  /\ hasOwnProperty parent' k = true
  /\ keys subschema' = keys subschema.
Proof.
  intros Hsk. unfold collapseKeyword.
  destruct (hasOwnProperty parent k) eqn:Hpk.
  - destruct (lookup vocab k) as [h|].
    + intros H. destruct (invoke_keys _ _ _ _ _ _ _ Hsk H) as [H1 H2]. auto.
    + intros H. ok_inv. auto.
  - intros H. ok_inv. repeat split.
    + intros k' Hk'. now apply hasOwnProperty_set_keeps.
    + rewrite hasOwnProperty_set, String.eqb_refl. reflexivity.
Qed.

Lemma collapseKeywords_keys vocab parentPath :
  forall ks parent subschema parent' subschema',
    incl ks (keys subschema) ->
    collapseKeywords collapse vocab parentPath ks parent subschema
    = Ok (parent', subschema') ->
    (forall k, hasOwnProperty parent k = true \/ In k ks ->
               hasOwnProperty parent' k = true)
    /\ keys subschema' = keys subschema.
Proof.
  induction ks as [|k0 ks IH]; intros parent subschema parent' subschema' Hincl H;
    simpl in H; ok_inv.
  - split; [|reflexivity]. intros k [Hk|[]]. exact Hk.
  - rename o into p1, o0 into s1.
    assert (Hs0 : hasOwnProperty subschema k0 = true).
    { apply hasOwnProperty_In, Hincl. now left. }
    destruct (collapseKeyword_keys _ _ _ _ _ _ _ Hs0 Ha) as (Hp1 & Hk0 & Hks1).
    destruct (IH p1 s1 parent' subschema') as [Hp2 Hks2].
    { rewrite Hks1. intros k Hk. apply Hincl. now right. }
    { exact H. }
    split; [|congruence].
    intros k [Hk|[<-|Hk]]; apply Hp2; auto.
Qed.

(** When parent and subschema both have a keyword whose handler is
    [_notSupported], the run over the keywords does not succeed. *)
Lemma collapseKeywords_notSupported vocab parentPath k :
  lookup vocab k = Some H_notSupported ->
  forall ks parent subschema,
    incl ks (keys subschema) ->
    In k ks ->
    hasOwnProperty parent k = true ->
    forall st,
      collapseKeywords collapse vocab parentPath ks parent subschema <> Ok st.
Proof.
  intros Hv. induction ks as [|k0 ks IH]; intros parent subschema Hincl Hin Hpk st;
    [destruct Hin|].
  simpl.
  destruct (collapseKeyword collapse vocab parentPath k0 parent subschema)
    as [[p1 s1]| | |] eqn:E; simpl; try discriminate.
  assert (Hs0 : hasOwnProperty subschema k0 = true).
  { apply hasOwnProperty_In, Hincl. now left. }
  destruct (collapseKeyword_keys _ _ _ _ _ _ _ Hs0 E) as (Hp1 & _ & Hks1).
  destruct Hin as [->|Hin].
  - exfalso. unfold collapseKeyword in E. rewrite Hpk, Hv in E. discriminate.
  - apply IH; auto. rewrite Hks1. intros x Hx. apply Hincl. now right.
Qed.
End KeysThroughMerge.

Lemma collapseSchemas_object_parent fuel vocab (o : object) parentPath s p' s' :
  collapseSchemas fuel vocab (JObj o) parentPath s = Ok (p', s') ->
  exists o', p' = JObj o'.
Proof.
  destruct fuel as [|n]; simpl; [discriminate|].
  destruct (isFalse s); [discriminate|].
  destruct (isTrue s); [intros H; ok_inv; eauto|].
  destruct s; try discriminate. intros H. ok_inv. eauto.
Qed.

(** X1: a successful collapse of two object schemas that have no key
    naming a member of [Object.prototype], at any depth, deletes no
    keyword of the pruned parent, leaves the parent with every keyword of
    the subschema, and leaves the subschema with exactly the keywords it
    had, in the same order.  (An assignment to "__proto__" would set the
    prototype and create no key.) *)
Theorem collapseSchemas_keeps_keywords
    (fuel : nat) (vocab : vocabulary) (p : object) (parentPath : path) (s : object)
    (p' s' : value) :
  ordinary (JObj p) = true ->
  ordinary (JObj s) = true ->
  collapseSchemas fuel vocab (JObj p) parentPath (JObj s) = Ok (p', s') ->
  exists o' t',
    p' = JObj o' /\ s' = JObj t'
    /\ keys t' = keys s
    /\ forall k,
         hasOwnProperty (pruneDangling p) k = true \/ hasOwnProperty s k = true ->
         hasOwnProperty o' k = true.
Proof.
  intros _ _.
  destruct fuel as [|n]; simpl; [discriminate|]. intros H. ok_inv.
  rename o into o', o0 into t'.
  destruct (collapseKeywords_keys _ _ _ _ _ _ _ _ (incl_refl _) Ha) as [Hp Hk].
  exists o', t'. repeat split; auto.
  intros k [Hk1|Hk2]; apply Hp; [now left | right; now apply hasOwnProperty_In].
Qed.

Lemma collapseSchemas_keeps_keywords_witness :
  exists o' t',
    collapseSchemas 1 DRAFT_04 (JObj [("type", JStr "string")]) []
      (JObj [("type", JStr "string"); ("minLength", JNum 2)])
    = Ok (JObj o', JObj t')
    /\ keys t' = ["type"; "minLength"]
    /\ hasOwnProperty o' "minLength" = true.
Proof.
  destruct (collapseSchemas_keeps_keywords 1 DRAFT_04 [("type", JStr "string")] []
              [("type", JStr "string"); ("minLength", JNum 2)]
              (JObj [("type", JStr "string"); ("minLength", JNum 2)])
              (JObj [("type", JArr [JStr "string"]); ("minLength", JNum 2)])
              eq_refl eq_refl eq_refl)
    as (o' & t' & Hp & Hs & Hk & Hhas).
  exists o', t'. split; [now rewrite <- Hp, <- Hs|]. split; [exact Hk|].
  apply Hhas. right. reflexivity.
Defined.

(** X2: in a successful collapse, a keyword that the subschema does not
    have, and that is not the modifier written by [_exclusiveComparison]
    for one of its keywords, keeps in the parent the value it has in the
    pruned parent, or stays absent. *)
Theorem collapseSchemas_leaves_other_keywords
    (fuel : nat) (vocab : vocabulary) (p : object) (parentPath : path) (s : object)
    (o' : object) (s' : value) (k : string) :
  collapseSchemas fuel vocab (JObj p) parentPath (JObj s) = Ok (JObj o', s') ->
  hasOwnProperty s k = false ->
  (forall keyword,
      hasOwnProperty s keyword = true ->
      lookup vocab keyword = Some H_exclusiveComparison ->
      k <> excKeyword keyword) ->
  lookup o' k = lookup (pruneDangling p) k.
Proof.
  destruct fuel as [|n]; simpl; [discriminate|]. intros H Hk Hexc. ok_inv.
  destruct (collapseKeywords_frame _ _ _ _ _ _ _ _ Ha) as [Hp _].
  apply Hp.
  - now apply hasOwnProperty_false_In.
  - intros keyword Hin. apply Hexc. now apply hasOwnProperty_In.
Qed.

Lemma collapseSchemas_leaves_other_keywords_witness :
  lookup [("title", JStr "t"); ("minLength", JNum 2)] "title"
  = lookup (pruneDangling [("title", JStr "t"); ("minLength", JNum 1)]) "title".
Proof.
  apply (collapseSchemas_leaves_other_keywords 1 DRAFT_04
           [("title", JStr "t"); ("minLength", JNum 1)] []
           [("minLength", JNum 2)]
           [("title", JStr "t"); ("minLength", JNum 2)]
           (JObj [("minLength", JNum 2)]) "title").
  - reflexivity.
  - reflexivity.
  - intros keyword H. apply hasOwnProperty_In in H. destruct H as [<-|[]].
    discriminate.
Defined.

(** X3: when the pruned parent and the subschema both have a keyword that
    the vocabulary hands to [_notSupported] ("$ref", "dependencies",
    "additionalItems", "additionalProperties" in draft-04), the collapse
    never succeeds, whatever the other keywords and their order. *)
Theorem collapseSchemas_notSupported_never_succeeds
    (fuel : nat) (vocab : vocabulary) (p : object) (parentPath : path) (s : object)
    (k : string) :
  lookup vocab k = Some H_notSupported ->
  hasOwnProperty (pruneDangling p) k = true ->
  hasOwnProperty s k = true ->
  ~ exists r, collapseSchemas fuel vocab (JObj p) parentPath (JObj s) = Ok r.
Proof.
  intros Hv Hp Hs [r Hr]. revert Hr. destruct fuel as [|n]; simpl; [discriminate|].
  destruct (collapseKeywords (collapseSchemas n vocab) vocab parentPath (keys s)
              (pruneDangling p) s) as [[o' t']| | |] eqn:E; simpl; try discriminate.
  exfalso.
  apply (collapseKeywords_notSupported (collapseSchemas n vocab) vocab parentPath k Hv
           (keys s) (pruneDangling p) s (incl_refl _)
           (proj1 (hasOwnProperty_In _ _) Hs) Hp (o', t')).
  exact E.
Qed.

Lemma collapseSchemas_notSupported_never_succeeds_witness :
  ~ exists r,
      collapseSchemas 3 DRAFT_04
        (JObj [("title", JStr "a"); ("$ref", JStr "#/definitions/a")]) []
        (JObj [("type", JStr "string"); ("$ref", JStr "#/definitions/b")])
      = Ok r.
Proof.
  apply (collapseSchemas_notSupported_never_succeeds 3 DRAFT_04
           [("title", JStr "a"); ("$ref", JStr "#/definitions/a")] []
           [("type", JStr "string"); ("$ref", JStr "#/definitions/b")] "$ref");
    reflexivity.
Defined.

(** ** The depth of the recursion *)

(** X4: the recursion of [collapseSchemas] goes no deeper than the objects
    of the subschema are nested: with more fuel than that, the answer is
    never [OutOfFuel], and it is the answer for every larger fuel. *)
Theorem collapseSchemas_terminates
    (vocab : vocabulary) (fuel fuel' : nat) (p : value) (parentPath : path)
    (s : value) :
  nesting s < fuel ->
  fuel <= fuel' ->
  collapseSchemas fuel vocab p parentPath s <> OutOfFuel
  /\ collapseSchemas fuel' vocab p parentPath s
     = collapseSchemas fuel vocab p parentPath s.
Proof.
  intros Hd Hle.
  pose proof (collapseSchemas_fuel vocab fuel p parentPath s Hd) as H.
  split; [exact H|]. now apply collapseSchemas_fuel_monotone.
Qed.

Lemma collapseSchemas_terminates_witness :
  collapseSchemas 4 DRAFT_04
    (JObj [("properties", JObj [("a", JObj [("type", JStr "string")])])]) []
    (JObj [("properties", JObj [("a", JObj [("minLength", JNum 2)])])])
  <> OutOfFuel
  /\ collapseSchemas 7 DRAFT_04
       (JObj [("properties", JObj [("a", JObj [("type", JStr "string")])])]) []
       (JObj [("properties", JObj [("a", JObj [("minLength", JNum 2)])])])
     = collapseSchemas 4 DRAFT_04
         (JObj [("properties", JObj [("a", JObj [("type", JStr "string")])])]) []
         (JObj [("properties", JObj [("a", JObj [("minLength", JNum 2)])])]).
Proof.
  apply (collapseSchemas_terminates DRAFT_04 4 7).
  - simpl. lia.
  - lia.
Defined.

(** ** The callback *)



Lemma reduceAllOf_object fuel vocab at_ :
  forall allOf (o : object) r,
    reduceAllOf fuel vocab at_ allOf (JObj o) = Ok r -> exists o', r = JObj o'.
Proof.
  induction allOf as [|x allOf IH]; intros o r H; simpl in H.
  - ok_inv. eauto.
  - ok_inv. destruct (collapseSchemas_object_parent _ _ _ _ _ _ _ Ha) as [o1 ->].
    eauto.
Qed.

(** X5: whatever the callback answers without failing has no own "allOf":
    a node that is an object comes back as an object without that key, a
    node that is no object or has no "allOf" comes back as it is. *)
Theorem callback_removes_allOf
    (metaSchemaUri : string) (additionalVocabularies : list vocabulary) (fuel : nat)
    (node : value) (path_ parentPath : path) (r : value) :
  getCollapseAllOfCallback metaSchemaUri additionalVocabularies fuel
    node path_ parentPath = Ok r ->
  (forall o, r = JObj o -> hasOwnProperty o "allOf" = false)
  /\ (forall o, node = JObj o -> exists o', r = JObj o')
  /\ ((forall o, node = JObj o -> hasOwnProperty o "allOf" = false) -> r = node).
Proof.
  unfold getCollapseAllOfCallback. intros H.
  destruct node as [| | | | | |o]; ok_inv;
    try (split; [discriminate | split; [discriminate | reflexivity]]).
  destruct (hasOwnProperty o "allOf") eqn:Hall.
  - destruct (get o "allOf") as [| | | | |allOf|]; try discriminate.
    ok_inv.
    split; [|split].
    + intros o0 [= <-]. rewrite hasOwnProperty_delete. reflexivity.
    + eauto.
    + intros Hno. specialize (Hno o eq_refl). congruence.
  - ok_inv. split; [|split].
    + intros o0 [= <-]. exact Hall.
    + eauto.
    + reflexivity.
Qed.

Lemma callback_removes_allOf_witness :
  hasOwnProperty [("type", JStr "string"); ("minLength", JNum 1)] "allOf" = false.
Proof.
  apply (proj1 (callback_removes_allOf draft04 [] 2
                  (JObj [("type", JStr "string");
                         ("allOf", JArr [JObj [("minLength", JNum 1)]])])
                  [Key "a"] [] (JObj [("type", JStr "string"); ("minLength", JNum 1)])
                  eq_refl)
           [("type", JStr "string"); ("minLength", JNum 1)] eq_refl).
Defined.



(** X7: the subschemas [true] of an "allOf" count for nothing: folding the
    list into an object node answers what folding the list without them
    answers, failures included. *)
Theorem reduceAllOf_skips_true (n : nat) (vocab : vocabulary) (at_ : path) :
  forall (allOf : list value) (o : object),
    reduceAllOf (S n) vocab at_ allOf (JObj o)
    = reduceAllOf (S n) vocab at_ (filter (fun v => negb (isTrue v)) allOf) (JObj o).
Proof.
  induction allOf as [|x allOf IH]; intros o; [reflexivity|].
  cbn [filter]. destruct (isTrue x) eqn:Hx; cbn [negb].
  - destruct x as [| |[|]| | | |]; try discriminate.
    cbn [reduceAllOf]. replace (collapseSchemas (S n) vocab (JObj o) at_ (JBool true))
      with (Ok (JObj o, JBool true) : result (value * value)) by reflexivity.
    cbn [bind]. apply IH.
  - cbn [reduceAllOf].
    destruct (collapseSchemas (S n) vocab (JObj o) at_ x) as [[p' s']| | |] eqn:E;
      cbn [bind]; try reflexivity.
    destruct (collapseSchemas_object_parent _ _ _ _ _ _ _ E) as [o' ->].
    apply IH.
Qed.

(** ** Layered vocabularies *)

Lemma lookup_assign {A : Type} (source : list (string * A)) :
  forall (target : list (string * A)) k,
    lookup (assign target source) k
    = match lookup (rev source) k with
      | Some h => Some h
      | None => lookup target k
      end.
Proof.
  unfold assign. induction source as [|[k0 v0] source IH]; intros target k; simpl.
  - reflexivity.
  - rewrite IH, lookup_app. destruct (lookup (rev source) k); [reflexivity|].
    simpl. destruct (String.eqb_spec k0 k) as [->|Hne].
    + now rewrite lookup_set_same.
    + now rewrite lookup_set_other.
Qed.

Lemma lookup_rev {A : Type} (o : list (string * A)) k :
  NoDup (keys o) -> lookup (rev o) k = lookup o k.
Proof.
  intros Hnd.
  assert (Hnd' : NoDup (keys (rev o))).
  { unfold keys. rewrite map_rev. now apply NoDup_rev. }
  destruct (lookup o k) as [v|] eqn:E.
  - apply In_lookup; [exact Hnd'|]. apply in_rev. rewrite rev_involutive.
    now apply lookup_In.
  - destruct (lookup (rev o) k) as [v|] eqn:E'; [|reflexivity].
    apply lookup_In, in_rev in E'. rewrite (In_lookup _ _ _ Hnd E') in E.
    discriminate.
Qed.

(** X8: an extension vocabulary given last wins, keyword by keyword: the
    vocabulary of the callback answers its handler where it has one, and
    otherwise what the dialect and the vocabularies before it answer. *)
Theorem effectiveVocabulary_last_wins
    (metaSchemaUri : string) (before : list vocabulary) (last : vocabulary)
    (k : string) :
  NoDup (keys last) ->
  lookup (effectiveVocabulary metaSchemaUri (before ++ [last])) k
  = match lookup last k with
    | Some h => Some h
    | None => lookup (effectiveVocabulary metaSchemaUri before) k
    end.
Proof.
  intros Hnd. unfold effectiveVocabulary. rewrite fold_left_app. simpl.
  now rewrite lookup_assign, lookup_rev.
Qed.

Lemma effectiveVocabulary_last_wins_witness :
  lookup (effectiveVocabulary draft04
            ([[("format", H_parentWins)]] ++ [[("minimum", H_maxOfMin)]])) "minimum"
  = Some H_maxOfMin.
Proof.
  apply (effectiveVocabulary_last_wins draft04 [[("format", H_parentWins)]]
           [("minimum", H_maxOfMin)] "minimum").
  repeat constructor. simpl. tauto.
Defined.

(** ** What the merges of bounds say *)

(** X9: on two numbers, [_maxOfMin] stores a bound that is at least both
    and is one of the two, and [_minOfMax] a bound that is at most both
    and is one of the two; nothing else is written. *)
Theorem bounds_tighten
    (parent : object) (parentPath : path) (subschema : object) (keyword : string)
    (p s : Q) :
  get parent keyword = JNum p ->
  get subschema keyword = JNum s ->
  (exists r,
      _maxOfMin parent parentPath subschema keyword
      = Ok (set parent keyword (JNum r), subschema)
      /\ (p <= r)%Q /\ (s <= r)%Q /\ (r == p \/ r == s)%Q)
  /\ (exists r,
         _minOfMax parent parentPath subschema keyword
         = Ok (set parent keyword (JNum r), subschema)
         /\ (r <= p)%Q /\ (r <= s)%Q /\ (r == p \/ r == s)%Q).
Proof.
  intros Hp Hs. unfold _maxOfMin, _minOfMax. rewrite Hp, Hs. split.
  - exists (Qmax p s). split; [reflexivity|]. split; [apply Q.le_max_l|].
    split; [apply Q.le_max_r|].
    destruct (Q.max_spec p s) as [[_ E]|[_ E]]; auto.
  - exists (Qmin p s). split; [reflexivity|]. split; [apply Q.le_min_l|].
    split; [apply Q.le_min_r|].
    destruct (Q.min_spec p s) as [[_ E]|[_ E]]; auto.
Qed.

Lemma bounds_tighten_witness :
  exists r,
    _maxOfMin [("minLength", JNum 2)] [] [("minLength", JNum 5)] "minLength"
    = Ok (set [("minLength", JNum 2)] "minLength" (JNum r), [("minLength", JNum 5)])
    /\ (2 <= r)%Q /\ (5 <= r)%Q /\ (r == 2 \/ r == 5)%Q.
Proof.
  exact (proj1 (bounds_tighten [("minLength", JNum 2)] [] [("minLength", JNum 5)]
                  "minLength" 2%Q 5%Q eq_refl eq_refl)).
Defined.

Lemma Qltb_false p s : Qltb p s = false -> (s <= p)%Q.
Proof.
  intros H. apply Qnot_lt_le. intros Hlt. apply Qltb_lt in Hlt. congruence.
Qed.

Lemma Qeq_bool_false p s : Qeq_bool p s = false -> ~ (p == s)%Q.
Proof. intros H E. apply Qeq_bool_iff in E. congruence. Qed.

(** X10: on numeric bounds, what [_exclusiveComparison] leaves in the
    parent is the conjunction of the two sides: a number is above the
    merged "minimum" (strictly, when the merged "exclusiveMinimum" is set)
    exactly when it is above the one of the parent and above the one of
    the subschema; likewise below the merged "maximum". *)
Theorem exclusiveComparison_conjunction
    (parent : object) (parentPath : path) (subschema : object) (p s : Q) :
  (get parent "minimum" = JNum p ->
   get subschema "minimum" = JNum s ->
   exists parent',
     _exclusiveComparison parent parentPath subschema "minimum"
     = Ok (parent', subschema)
     /\ forall x,
          aboveMinimum parent' x
          <-> aboveMinimum parent x /\ aboveMinimum subschema x)
  /\ (get parent "maximum" = JNum p ->
      get subschema "maximum" = JNum s ->
      exists parent',
        _exclusiveComparison parent parentPath subschema "maximum"
        = Ok (parent', subschema)
        /\ forall x,
             belowMaximum parent' x
             <-> belowMaximum parent x /\ belowMaximum subschema x).
Proof.
  split; intros Hp Hs; unfold _exclusiveComparison; rewrite Hp, Hs;
    unfold chooseSubValue; simpl String.eqb; cbv iota;
    change (excKeyword "minimum") with "exclusiveMinimum";
    change (excKeyword "maximum") with "exclusiveMaximum".
  - destruct (Qeq_bool p s) eqn:Heq; simpl andb.
    + apply Qeq_bool_iff in Heq.
      destruct (truthy (get parent "exclusiveMinimum")) eqn:Fp; simpl orb.
      * eexists. split; [reflexivity|]. intros x. unfold aboveMinimum.
        rewrite get_set_other by discriminate. rewrite get_set_same, Hp, Hs, Fp.
        simpl. destruct (truthy (get subschema "exclusiveMinimum")); lra.
      * destruct (truthy (get subschema "exclusiveMinimum")) eqn:Fs.
        -- eexists. split; [reflexivity|]. intros x. unfold aboveMinimum.
           rewrite get_set_other by discriminate.
           rewrite get_set_same, Hp, Hs, Fp, Fs. simpl. lra.
        -- destruct (Qltb_irrefl_eq p s Heq) as [-> _].
           eexists. split; [reflexivity|]. intros x. unfold aboveMinimum.
           rewrite Hp, Hs, Fp, Fs. lra.
    + apply Qeq_bool_false in Heq. destruct (Qltb p s) eqn:Hlt.
      * apply Qltb_lt in Hlt.
        eexists. split; [reflexivity|]. intros x. unfold aboveMinimum.
        rewrite get_set_same. rewrite get_set_other by discriminate.
        rewrite get_set_same, Hp, Hs.
        destruct (truthy (get parent "exclusiveMinimum")),
                 (truthy (get subschema "exclusiveMinimum")); lra.
      * apply Qltb_false in Hlt.
        eexists. split; [reflexivity|]. intros x. unfold aboveMinimum.
        rewrite Hp, Hs.
        destruct (truthy (get parent "exclusiveMinimum")),
                 (truthy (get subschema "exclusiveMinimum")); lra.
  - destruct (Qeq_bool p s) eqn:Heq; simpl andb.
    + apply Qeq_bool_iff in Heq.
      destruct (truthy (get parent "exclusiveMaximum")) eqn:Fp; simpl orb.
      * eexists. split; [reflexivity|]. intros x. unfold belowMaximum.
        rewrite get_set_other by discriminate. rewrite get_set_same, Hp, Hs, Fp.
        simpl. destruct (truthy (get subschema "exclusiveMaximum")); lra.
      * destruct (truthy (get subschema "exclusiveMaximum")) eqn:Fs.
        -- eexists. split; [reflexivity|]. intros x. unfold belowMaximum.
           rewrite get_set_other by discriminate.
           rewrite get_set_same, Hp, Hs, Fp, Fs. simpl. lra.
        -- destruct (Qltb_irrefl_eq p s Heq) as [_ ->].
           eexists. split; [reflexivity|]. intros x. unfold belowMaximum.
           rewrite Hp, Hs, Fp, Fs. lra.
    + apply Qeq_bool_false in Heq. destruct (Qltb s p) eqn:Hlt.
      * apply Qltb_lt in Hlt.
        eexists. split; [reflexivity|]. intros x. unfold belowMaximum.
        rewrite get_set_same. rewrite get_set_other by discriminate.
        rewrite get_set_same, Hp, Hs.
        destruct (truthy (get parent "exclusiveMaximum")),
                 (truthy (get subschema "exclusiveMaximum")); lra.
      * apply Qltb_false in Hlt.
        eexists. split; [reflexivity|]. intros x. unfold belowMaximum.
        rewrite Hp, Hs.
        destruct (truthy (get parent "exclusiveMaximum")),
                 (truthy (get subschema "exclusiveMaximum")); lra.
Qed.

Lemma exclusiveComparison_conjunction_witness :
  exists parent',
    _exclusiveComparison [("minimum", JNum 3); ("exclusiveMinimum", JBool true)] []
      [("minimum", JNum 3)] "minimum"
    = Ok (parent', [("minimum", JNum 3)])
    /\ forall x,
         aboveMinimum parent' x
         <-> aboveMinimum [("minimum", JNum 3); ("exclusiveMinimum", JBool true)] x
             /\ aboveMinimum [("minimum", JNum 3)] x.
Proof.
  exact (proj1 (exclusiveComparison_conjunction
                  [("minimum", JNum 3); ("exclusiveMinimum", JBool true)] []
                  [("minimum", JNum 3)] 3%Q 3%Q) eq_refl eq_refl).
Defined.

(** ** Collision, union and intersection *)

Lemma isEqual_comm (a b : value) :
  wellFormed a = true -> wellFormed b = true -> isEqual a b = isEqual b a.
Proof.
  intros Ha Hb. apply eq_true_iff_eq. split; intros H; now apply isEqual_sym.
Qed.

(** X11: [_collision] changes neither side and answers [Ok] or the
    collision at the path it was given; on well-formed values it succeeds
    when the two values are the same value, and it succeeds exactly when
    it succeeds with parent and subschema exchanged. *)
Theorem collision_symmetric
    (parent : object) (parentPath : path) (subschema : object) (keyword : string) :
  wellFormed (get parent keyword) = true ->
  wellFormed (get subschema keyword) = true ->
  (_collision parent parentPath subschema keyword = Ok (parent, subschema)
   \/ _collision parent parentPath subschema keyword
      = Throw (Collision keyword parentPath))
  /\ (get parent keyword = get subschema keyword ->
      _collision parent parentPath subschema keyword = Ok (parent, subschema))
  /\ (_collision parent parentPath subschema keyword = Ok (parent, subschema)
      <-> _collision subschema parentPath parent keyword = Ok (subschema, parent)).
Proof.
  intros Hp Hs. unfold _collision.
  rewrite (isEqual_comm (get subschema keyword) (get parent keyword) Hs Hp).
  split; [|split].
  - destruct (isEqual (get parent keyword) (get subschema keyword)); auto.
  - intros E. rewrite <- E, (isEqual_refl _ Hp). reflexivity.
  - destruct (isEqual (get parent keyword) (get subschema keyword)); simpl;
      split; intros H; try reflexivity; discriminate.
Qed.

Lemma collision_symmetric_witness :
  _collision [("not", JObj [("type", JStr "null"); ("title", JStr "n")])] []
    [("not", JObj [("title", JStr "n"); ("type", JStr "null")])] "not"
  = Ok ([("not", JObj [("type", JStr "null"); ("title", JStr "n")])],
        [("not", JObj [("title", JStr "n"); ("type", JStr "null")])])
  <-> _collision [("not", JObj [("title", JStr "n"); ("type", JStr "null")])] []
        [("not", JObj [("type", JStr "null"); ("title", JStr "n")])] "not"
      = Ok ([("not", JObj [("title", JStr "n"); ("type", JStr "null")])],
            [("not", JObj [("type", JStr "null"); ("title", JStr "n")])]).
Proof.
  exact (proj2 (proj2 (collision_symmetric
                         [("not", JObj [("type", JStr "null"); ("title", JStr "n")])] []
                         [("not", JObj [("title", JStr "n"); ("type", JStr "null")])]
                         "not" eq_refl eq_refl))).
Defined.

Section UniqWith.
Context {A : Type}.
Variable cmp : A -> A -> bool.

Lemma distinctWith_snoc (acc : list A) (y : A) :
  distinctWith cmp (acc ++ [y])
  = distinctWith cmp acc && negb (includesWith cmp acc y).
Proof.
  unfold includesWith. induction acc as [|x acc IH]; simpl; [reflexivity|].
  rewrite forallb_app, IH. simpl.
  destruct (forallb _ acc), (cmp y x), (distinctWith cmp acc),
    (existsb (cmp y) acc); reflexivity.
Qed.

Lemma uniqWith_from_distinct (l : list A) :
  forall acc,
    distinctWith cmp acc = true ->
    distinctWith cmp
      (fold_left (fun result x =>
                    if includesWith cmp result x then result else result ++ [x])
                 l acc) = true.
Proof.
  induction l as [|y l IH]; intros acc Hacc; simpl; [exact Hacc|].
  apply IH. destruct (includesWith cmp acc y) eqn:E; [exact Hacc|].
  now rewrite distinctWith_snoc, Hacc, E.
Qed.

Lemma uniqWith_from_appends (l : list A) :
  forall acc,
  exists rest,
    fold_left (fun result x =>
                 if includesWith cmp result x then result else result ++ [x])
              l acc = acc ++ rest.
Proof.
  induction l as [|y l IH]; intros acc; simpl.
  - exists []. now rewrite app_nil_r.
  - destruct (includesWith cmp acc y); [apply IH|].
    destruct (IH (acc ++ [y])) as [rest ->].
    exists (y :: rest). now rewrite <- app_assoc.
Qed.

Lemma distinctWith_app_cons (acc : list A) (y : A) (l : list A) :
  distinctWith cmp (acc ++ y :: l) = true -> includesWith cmp acc y = false.
Proof.
  unfold includesWith. induction acc as [|x acc IH]; simpl; [reflexivity|].
  rewrite andb_true_iff, forallb_app. simpl. rewrite !andb_true_iff, negb_true_iff.
  intros [(_ & Hyx & _) Hd]. now rewrite Hyx, IH.
Qed.

Lemma uniqWith_from_fresh (l : list A) :
  forall acc,
    distinctWith cmp (acc ++ l) = true ->
    fold_left (fun result x =>
                 if includesWith cmp result x then result else result ++ [x])
              l acc = acc ++ l.
Proof.
  induction l as [|y l IH]; intros acc H; simpl; [now rewrite app_nil_r|].
  rewrite (distinctWith_app_cons _ _ _ H).
  rewrite IH; rewrite <- app_assoc; [reflexivity | exact H].
Qed.
End UniqWith.

Lemma includesWith_In (l : list value) (x : value) :
  wellFormed x = true -> In x l -> includesWith isEqual l x = true.
Proof.
  intros Hx Hin. apply includesWith_exists. exists x. split; [exact Hin|].
  now apply isEqual_refl.
Qed.

(** X12: on two arrays, [_arrayUnion] stores an array that holds nothing
    but elements of the two, holds every well-formed element of either up
    to deep equality, and holds no two deeply equal elements; when the
    array of the parent has no two deeply equal elements, its elements
    come first, as they were. *)
Theorem arrayUnion_elements
    (parent : object) (parentPath : path) (subschema : object) (keyword : string)
    (a b : list value) :
  get parent keyword = JArr a ->
  get subschema keyword = JArr b ->
  exists u,
    _arrayUnion parent parentPath subschema keyword
    = Ok (set parent keyword (JArr u), subschema)
    /\ (forall x, In x u -> In x a \/ In x b)
    /\ (forall x, wellFormed x = true -> In x a \/ In x b ->
                  includesWith isEqual u x = true)
    /\ distinctWith isEqual u = true
    /\ (distinctWith isEqual a = true -> exists rest, u = a ++ rest).
Proof.
  intros Hp Hs. unfold _arrayUnion. rewrite Hp, Hs.
  exists (unionWith (JArr a) (JArr b) isEqual).
  split; [reflexivity|]. unfold unionWith. simpl castArray. repeat split.
  - intros x Hx. apply In_uniqWith in Hx. now apply in_app_or.
  - intros x Hwf Hx. rewrite includesWith_uniqWith.
    apply includesWith_In; [exact Hwf | now apply in_or_app].
  - now apply uniqWith_from_distinct.
  - intros Ha. unfold uniqWith. rewrite fold_left_app.
    rewrite (uniqWith_from_fresh isEqual a []) by exact Ha. simpl.
    apply uniqWith_from_appends.
Qed.

Lemma arrayUnion_elements_witness :
  exists u,
    _arrayUnion [("required", JArr [JStr "a"; JStr "b"])] []
      [("required", JArr [JStr "b"; JStr "c"])] "required"
    = Ok (set [("required", JArr [JStr "a"; JStr "b"])] "required" (JArr u),
          [("required", JArr [JStr "b"; JStr "c"])])
    /\ distinctWith isEqual u = true
    /\ exists rest, u = [JStr "a"; JStr "b"] ++ rest.
Proof.
  destruct (arrayUnion_elements [("required", JArr [JStr "a"; JStr "b"])] []
              [("required", JArr [JStr "b"; JStr "c"])] "required"
              [JStr "a"; JStr "b"] [JStr "b"; JStr "c"] eq_refl eq_refl)
    as (u & Hr & _ & _ & Hd & Hpre).
  exists u. split; [exact Hr|]. split; [exact Hd|]. apply Hpre. reflexivity.
Defined.

(** X13: on two arrays, [_arrayIntersection] stores an array of elements
    of the parent, each deeply equal to an element of the subschema, with
    no two deeply equal; every well-formed element of the parent that is
    deeply equal to one of the subschema is kept up to deep equality; an
    empty result is stored like any other. *)
Theorem arrayIntersection_elements
    (parent : object) (parentPath : path) (subschema : object) (keyword : string)
    (a b : list value) :
  get parent keyword = JArr a ->
  get subschema keyword = JArr b ->
  exists u,
    _arrayIntersection parent parentPath subschema keyword
    = Ok (set parent keyword (JArr u), subschema)
    /\ (forall x, In x u -> In x a /\ includesWith isEqual b x = true)
    /\ (forall x, wellFormed x = true -> In x a ->
                  includesWith isEqual b x = true ->
                  includesWith isEqual u x = true)
    /\ distinctWith isEqual u = true
    /\ (b = [] -> u = []).
Proof.
  intros Hp Hs. unfold _arrayIntersection. rewrite Hp, Hs.
  exists (intersectionWith (JArr a) (JArr b) isEqual).
  split; [reflexivity|]. unfold intersectionWith. simpl castArray. repeat split.
  - apply In_uniqWith in H. now apply filter_In in H.
  - apply In_uniqWith in H. now apply filter_In in H.
  - intros x Hwf Hx Hb. rewrite includesWith_uniqWith.
    apply includesWith_In; [exact Hwf|]. apply filter_In. now split.
  - now apply uniqWith_from_distinct.
  - intros ->. clear Hp Hs.
    assert (E : filter (includesWith isEqual []) a = []).
    { induction a as [|x a IH]; [reflexivity | exact IH]. }
    now rewrite E.
Qed.

Lemma arrayIntersection_elements_witness :
  exists u,
    _arrayIntersection [("enum", JArr [JNum 1; JNum 2])] []
      [("enum", JArr [])] "enum"
    = Ok (set [("enum", JArr [JNum 1; JNum 2])] "enum" (JArr u), [("enum", JArr [])])
    /\ u = [].
Proof.
  destruct (arrayIntersection_elements [("enum", JArr [JNum 1; JNum 2])] []
              [("enum", JArr [])] "enum" [JNum 1; JNum 2] [] eq_refl eq_refl)
    as (u & Hr & _ & _ & _ & He).
  exists u. split; [exact Hr | now apply He].
Defined.

(** X14: on two values that are not arrays, [_singleValueOrArrayIntersection]
    never fails: the parent keeps its value when the two are deeply equal
    and gets the empty array when they are not; its other keywords are
    left alone. *)
Theorem singleValueOrArrayIntersection_scalars
    (parent : object) (parentPath : path) (subschema : object) (keyword : string) :
  isArray (get parent keyword) = false ->
  isArray (get subschema keyword) = false ->
  exists parent' subschema',
    _singleValueOrArrayIntersection parent parentPath subschema keyword
    = Ok (parent', subschema')
    /\ get parent' keyword
       = (if isEqual (get parent keyword) (get subschema keyword)
          then get parent keyword else JArr [])
    /\ forall k, k <> keyword -> lookup parent' k = lookup parent k.
Proof.
  intros Hp Hs. unfold _singleValueOrArrayIntersection, _arrayIntersection.
  rewrite Hp, Hs. simpl negb. cbv iota. unfold bind.
  rewrite !get_set_same.
  unfold intersectionWith, uniqWith, includesWith. simpl.
  destruct (isEqual (get parent keyword) (get subschema keyword)); simpl;
    do 2 eexists; (split; [reflexivity|]); split;
    try (apply get_set_same);
    intros k Hk; rewrite !lookup_set_other by congruence; reflexivity.
Qed.

Lemma singleValueOrArrayIntersection_scalars_witness :
  exists parent' subschema',
    _singleValueOrArrayIntersection [("type", JStr "string")] []
      [("type", JStr "number")] "type"
    = Ok (parent', subschema')
    /\ get parent' "type"
       = (if isEqual (get [("type", JStr "string")] "type")
                     (get [("type", JStr "number")] "type")
          then get [("type", JStr "string")] "type" else JArr [])
    /\ forall k, k <> "type" -> lookup parent' k = lookup [("type", JStr "string")] k.
Proof.
  exact (singleValueOrArrayIntersection_scalars [("type", JStr "string")] []
           [("type", JStr "number")] "type" eq_refl eq_refl).
Defined.

(** ** Objects of schemas, property by property *)






Section PerProperty.
Variable collapse : value -> path -> value -> result (value * value).

End PerProperty.



(** ** Where a failure points *)

Lemma bind_Throw {A B : Type} (c : result A) (f : A -> result B) (e : error) :
  bind c f = Throw e -> c = Throw e \/ exists a, c = Ok a /\ f a = Throw e.
Proof.
  destruct c; simpl; intros H; try discriminate; [right; eauto | left; congruence].
Qed.

Lemma path_below (parentPath more suffix : path) (e : error) :
  errorPath e = (parentPath ++ more) ++ suffix ->
  exists suffix', errorPath e = parentPath ++ suffix'.
Proof. intros ->. exists (more ++ suffix). now rewrite app_assoc. Qed.

Lemma path_here (parentPath : path) : exists suffix, parentPath = parentPath ++ suffix.
Proof. exists []. now rewrite app_nil_r. Qed.

Section Located.
Variable collapse : value -> path -> value -> result (value * value).
Hypothesis Hloc : locates collapse.

Lemma collapseElements_located parentPath keyword :
  forall ps ss i e,
    collapseElements collapse parentPath keyword i ps ss = Throw e ->
    exists suffix, errorPath e = parentPath ++ suffix.
Proof.
  induction ps as [|p ps IH]; intros ss i e H; simpl in H; [discriminate|].
  destruct ss as [|s ss]; [discriminate|].
  apply bind_Throw in H. destruct H as [H|([p' s'] & _ & H)].
  - destruct (Hloc _ _ _ _ H) as [suffix E]. exact (path_below _ _ _ _ E).
  - apply bind_Throw in H. destruct H as [H|([ps' ss'] & _ & H)]; [|discriminate].
    exact (IH _ _ _ H).
Qed.

Lemma collapseProperties_located parentPath keyword :
  forall props pv sv e,
    collapseProperties collapse parentPath keyword props pv sv = Throw e ->
    exists suffix, errorPath e = parentPath ++ suffix.
Proof.
  induction props as [|prop props IH]; intros pv sv e H; simpl in H; [discriminate|].
  destruct (negb (hasOwnProperty pv prop)); [exact (IH _ _ _ H)|].
  destruct (hasOwnProperty sv prop); [|exact (IH _ _ _ H)].
  apply bind_Throw in H. destruct H as [H|([p' s'] & _ & H)].
  - destruct (Hloc _ _ _ _ H) as [suffix E]. exact (path_below _ _ _ _ E).
  - exact (IH _ _ _ H).
Qed.

Lemma invoke_located h parent parentPath subschema keyword e :
  invoke collapse h parent parentPath subschema keyword = Throw e ->
  exists suffix, errorPath e = parentPath ++ suffix.
Proof.
  destruct h; simpl; intros H.
  - discriminate.
  - unfold _maxOfMin in H.
    destruct (get parent keyword), (get subschema keyword); discriminate.
  - unfold _minOfMax in H.
    destruct (get parent keyword), (get subschema keyword); discriminate.
  - unfold _exclusiveComparison in H.
    destruct (get parent keyword), (get subschema keyword); try discriminate.
    destruct (_ && _); [discriminate|].
    destruct (chooseSubValue _ _ _); discriminate.
  - discriminate.
  - discriminate.
  - unfold _singleValueOrArrayIntersection, _arrayIntersection in H. simpl in H.
    match type of H with
    | match get ?P _ with _ => _ end = _ =>
        destruct (get P keyword) as [| | | | |[|v [|]]|]
    end; discriminate.
  - unfold _collapseArrayOrSingleSchemas in H.
    destruct (_ && _); [injection H as <-; apply path_here|].
    destruct (negb _); [injection H as <-; apply path_here|].
    assert (Hsingle : forall pv,
               (' (p', s') <- collapse pv (parentPath ++ [Key keyword])
                                (get subschema keyword) ;;
                Ok (mutated parent keyword p', mutated subschema keyword s'))
               = Throw e ->
               exists suffix, errorPath e = parentPath ++ suffix).
    { intros pv Hb. apply bind_Throw in Hb.
      destruct Hb as [Hb|([p' s'] & _ & Hb)]; [|discriminate].
      destruct (Hloc _ _ _ _ Hb) as [suffix E]. exact (path_below _ _ _ _ E). }
    destruct (get parent keyword) as [| | | | |ps|] eqn:Ep;
      try (now apply (Hsingle _ H)).
    destruct (get subschema keyword) as [| | | | |ss|] eqn:Es;
      try (now apply (Hsingle _ H)).
    apply bind_Throw in H. destruct H as [H|([ps' ss'] & _ & H)]; [|discriminate].
    exact (collapseElements_located _ _ _ _ _ _ H).
  - unfold _collapseObjectOfSchemas in H.
    destruct (_ && _); [injection H as <-; apply path_here|].
    destruct (get parent keyword) as [| | | | | |pv]; try discriminate.
    destruct (get subschema keyword) as [| | | | | |sv]; try discriminate.
    apply bind_Throw in H. destruct H as [H|([pv' sv'] & _ & H)]; [|discriminate].
    exact (collapseProperties_located _ _ _ _ _ _ H).
  - discriminate.
  - unfold _collision in H. destruct (negb _); [|discriminate].
    injection H as <-. apply path_here.
  - unfold _notSupported in H. injection H as <-. apply path_here.
Qed.

Lemma collapseKeywords_located vocab parentPath :
  forall ks parent subschema e,
    collapseKeywords collapse vocab parentPath ks parent subschema = Throw e ->
    exists suffix, errorPath e = parentPath ++ suffix.
Proof.
  induction ks as [|k ks IH]; intros parent subschema e H; simpl in H;
    [discriminate|].
  apply bind_Throw in H. destruct H as [H|([p1 s1] & _ & H)]; [|exact (IH _ _ _ H)].
  unfold collapseKeyword in H.
  destruct (hasOwnProperty parent k); [|discriminate].
  destruct (lookup vocab k) as [h|]; [|discriminate].
  exact (invoke_located _ _ _ _ _ _ H).
Qed.
End Located.

Lemma collapseSchemas_locates vocab : forall fuel, locates (collapseSchemas fuel vocab).
Proof.
  induction fuel as [|n IH]; intros p parentPath s e H; simpl in H; [discriminate|].
  destruct (isTrue p || negb (isFalse p) && isFalse s);
    [injection H as <-; apply path_here|].
  destruct (isFalse p || isTrue s); [discriminate|].
  destruct p as [| | | | | |po]; try discriminate.
  destruct s as [| | | | | |so]; try discriminate.
  apply bind_Throw in H. destruct H as [H|([p' s'] & _ & H)]; [|discriminate].
  exact (collapseKeywords_located _ IH _ _ _ _ _ _ H).
Qed.

Lemma reduceAllOf_located fuel vocab at_ :
  forall allOf node e,
    reduceAllOf fuel vocab at_ allOf node = Throw e ->
    exists suffix, errorPath e = at_ ++ suffix.
Proof.
  induction allOf as [|x allOf IH]; intros node e H; simpl in H; [discriminate|].
  apply bind_Throw in H. destruct H as [H|([p' s'] & _ & H)].
  - exact (collapseSchemas_locates vocab fuel _ _ _ _ H).
  - exact (IH _ _ H).
Qed.

(** X16: every failure names a path at or below the one the collapse was
    started at: below [parentPath] for [collapseSchemas], below the path
    of the node, [parentPath.concat(path)], for the callback. *)
Theorem failures_are_located
    (fuel : nat) (vocab : vocabulary) (metaSchemaUri : string)
    (additionalVocabularies : list vocabulary)
    (p s : value) (path_ parentPath : path) (e : error) :
  (collapseSchemas fuel vocab p parentPath s = Throw e ->
   exists suffix, errorPath e = parentPath ++ suffix)
  /\ (getCollapseAllOfCallback metaSchemaUri additionalVocabularies fuel
        p path_ parentPath = Throw e ->
      exists suffix, errorPath e = (parentPath ++ path_) ++ suffix).
Proof.
  split.
  - apply collapseSchemas_locates.
  - unfold getCollapseAllOfCallback. intros H.
    destruct p as [| | | | | |o]; try discriminate.
    destruct (hasOwnProperty o "allOf"); [|discriminate].
    destruct (get o "allOf") as [| | | | |allOf|]; try discriminate.
    apply bind_Throw in H. destruct H as [H|(r & _ & H)].
    + exact (reduceAllOf_located _ _ _ _ _ _ H).
    + destruct r; discriminate.
Qed.

Lemma failures_are_located_witness :
  exists suffix,
    errorPath (Collision "format" [Key "definitions"; Key "properties"; Key "a"])
    = [Key "definitions"] ++ suffix.
Proof.
  apply (proj1 (failures_are_located 2 DRAFT_04 draft04 []
                  (JObj [("properties", JObj [("a", JObj [("format", JStr "date")])])])
                  (JObj [("properties", JObj [("a", JObj [("format", JStr "uri")])])])
                  [] [Key "definitions"]
                  (Collision "format" [Key "definitions"; Key "properties"; Key "a"]))).
  reflexivity.
Defined.
